(** * seiyuu-search: the scraping and cross-referencing engine

    A shallow embedding of [seiyuu-search.py]: the fetcher ([simple_get],
    [is_good_response]), the catalog parser ([AnimeList.load_anime_list]),
    the performer-page parser and linker ([Seiyuu.load_seiyuu]), the search
    resolver ([search_seiyuu]), the filtering loop of
    [Main.load_char_list] and the states of the window ([Main.set_state]
    and the callbacks of the buttons and entries).

    Python exceptions are modelled by the [outcome] monad.  A [str] is the
    list of its code points, a [bytes] value a list of [byte].  The network,
    the HTML tree builder of BeautifulSoup and the builtin [eval] are
    parameters of the engine; the tree queries of BeautifulSoup
    ([find_all], [find], [.string], [.attrs]) are written out. *)

From Stdlib.Strings Require Import String Ascii Byte.
From Stdlib Require Import NArith ZArith Lia Bool List.
Import ListNotations.

Set Implicit Arguments.
Set Warnings "-register-all,-notation-for-abbreviation".

(** ** Python runtime: exceptions *)

Inductive exn : Type :=
| TypeError
| KeyError
| IndexError
| AttributeError
| UnicodeDecodeError
| UnicodeEncodeError
| ValueError
| EvalError.

Inductive outcome (A : Type) : Type :=
| Returns (a : A)
| Raises (e : exn).

Arguments Returns {A} a.
Arguments Raises {A} e.

Definition bind {A B : Type} (m : outcome A) (k : A -> outcome B) : outcome B :=
  match m with
  | Returns a => k a
  | Raises e => Raises e
  end.

Declare Scope py_scope.
Delimit Scope py_scope with py.
Notation "x <- m ;; k" := (bind m (fun x => k))
  (at level 61, m at next level, right associativity) : py_scope.
Open Scope py_scope.

(** [o.attr] where [o] may be [None]: AttributeError on [None]. *)
Definition attr_of {A : Type} (o : option A) : outcome A :=
  match o with
  | Some a => Returns a
  | None => Raises AttributeError
  end.

(** [l[n]] on a list. *)
Definition index {A : Type} (l : list A) (n : nat) : outcome A :=
  match nth_error l n with
  | Some a => Returns a
  | None => Raises IndexError
  end.

(** ** Python runtime: [str] *)

(** A [str] is the sequence of its code points. *)
Definition pystr : Type := list N.

Definition str (s : string) : pystr := map N_of_ascii (list_ascii_of_string s).

Fixpoint str_eqb (s t : pystr) : bool :=
  match s, t with
  | [], [] => true
  | a :: s', b :: t' => N.eqb a b && str_eqb s' t'
  | _, _ => false
  end.

(** [x in l] for a list of strings. *)
Definition str_in (x : pystr) (l : list pystr) : bool :=
  existsb (str_eqb x) l.

Fixpoint startswith (s sub : pystr) {struct sub} : bool :=
  match sub, s with
  | [], _ => true
  | b :: sub', a :: s' => N.eqb a b && startswith s' sub'
  | _ :: _, [] => false
  end.

(** [find_from s sub] is the offset of the first occurrence of [sub] in
    [s], if any. *)
Fixpoint find_from (s sub : pystr) : option nat :=
  if startswith s sub then Some 0%nat
  else match s with
       | [] => None
       | _ :: s' => option_map S (find_from s' sub)
       end.

(** [s.find(sub, start)] for [start >= 0]: the lowest index [>= start]
    at which [sub] occurs, [-1] when there is none (also when [start] is
    past the end). *)
Definition find (s sub : pystr) (start : nat) : Z :=
  if Nat.ltb (length s) start then (-1)%Z
  else match find_from (skipn start s) sub with
       | Some k => Z.of_nat (start + k)
       | None => (-1)%Z
       end.

(** A slice bound, as Python normalises it: a negative bound counts from
    the end, and the result is clamped to [0 .. len]. *)
Definition slice_bound (len : nat) (i : Z) : nat :=
  let j := if (i <? 0)%Z then (i + Z.of_nat len)%Z else i in
  Nat.min len (Z.to_nat j).

(** [s[i:j]]. *)
Definition slice {A : Type} (s : list A) (i j : Z) : list A :=
  let lo := slice_bound (length s) i in
  let hi := slice_bound (length s) j in
  firstn (hi - lo) (skipn lo s).

(** [s.replace(old, new)] for a non-empty [old]: every non-overlapping
    occurrence, scanning left to right.  The fuel is the length of [s]. *)
Fixpoint replace_fuel (fuel : nat) (s old new : pystr) : pystr :=
  match fuel with
  | O => s
  | S fuel' =>
      if startswith s old
      then new ++ replace_fuel fuel' (skipn (length old) s) old new
      else match s with
           | [] => []
           | a :: s' => a :: replace_fuel fuel' s' old new
           end
  end.

Definition replace (s old new : pystr) : pystr :=
  replace_fuel (length s) s old new.

(** [s.lower()] on the characters of a header value, which are Latin-1:
    the ASCII capitals and the accented capitals move by 32. *)
Definition lower_char (c : N) : N :=
  if ((65 <=? c) && (c <=? 90))%N then (c + 32)%N
  else if ((192 <=? c) && (c <=? 222) && negb (c =? 215))%N then (c + 32)%N
  else c.

Definition lower (s : pystr) : pystr := map lower_char s.

(** The characters [str.isspace] accepts. *)
Definition isspace (c : N) : bool :=
  (((9 <=? c) && (c <=? 13)) || ((28 <=? c) && (c <=? 32))
   || (c =? 133) || (c =? 160) || (c =? 5760)
   || ((8192 <=? c) && (c <=? 8202))
   || (c =? 8232) || (c =? 8233) || (c =? 8239) || (c =? 8287)
   || (c =? 12288))%N.

Fixpoint lstrip (s : pystr) : pystr :=
  match s with
  | c :: s' => if isspace c then lstrip s' else s
  | [] => []
  end.

(** [s.strip()]. *)
Definition strip (s : pystr) : pystr := rev (lstrip (rev (lstrip s))).

(** ** Python runtime: [bytes] and UTF-8 *)

Definition bytes : Type := list byte.

Definition bytes_of (s : string) : bytes := list_byte_of_string s.

(** A continuation byte, [0x80 .. 0xBF]. *)
Definition is_cont (b : N) : bool := ((128 <=? b) && (b <=? 191))%N.

Definition between (lo b hi : N) : bool := ((lo <=? b) && (b <=? hi))%N.

(** The strict UTF-8 decoder behind [b.decode('utf-8')]: shortest forms
    only, no surrogates, nothing above U+10FFFF.  [None] is
    UnicodeDecodeError. *)
Fixpoint utf8_decode (bs : list N) : option pystr :=
  match bs with
  | [] => Some []
  | b0 :: r0 =>
      if (b0 <? 128)%N then option_map (cons b0) (utf8_decode r0)
      else
        match r0 with
        | [] => None
        | b1 :: r1 =>
            if between 194 b0 223 then
              if is_cont b1
              then option_map (cons ((b0 - 192) * 64 + (b1 - 128))%N)
                              (utf8_decode r1)
              else None
            else
              match r1 with
              | [] => None
              | b2 :: r2 =>
                  if between 224 b0 239 then
                    if (if (b0 =? 224)%N then between 160 b1 191
                        else if (b0 =? 237)%N then between 128 b1 159
                        else is_cont b1) && is_cont b2
                    then option_map
                           (cons ((b0 - 224) * 4096 + (b1 - 128) * 64
                                  + (b2 - 128))%N)
                           (utf8_decode r2)
                    else None
                  else
                    match r2 with
                    | [] => None
                    | b3 :: r3 =>
                        if between 240 b0 244 then
                          if (if (b0 =? 240)%N then between 144 b1 191
                              else if (b0 =? 244)%N then between 128 b1 143
                              else is_cont b1) && is_cont b2 && is_cont b3
                          then option_map
                                 (cons ((b0 - 240) * 262144
                                        + (b1 - 128) * 4096
                                        + (b2 - 128) * 64 + (b3 - 128))%N)
                                 (utf8_decode r3)
                          else None
                        else None
                    end
              end
        end
  end.

(** [b.decode('utf-8')]. *)
Definition decode (b : bytes) : outcome pystr :=
  match utf8_decode (map Byte.to_N b) with
  | Some s => Returns s
  | None => Raises UnicodeDecodeError
  end.

(** The UTF-8 encoding of one code point; surrogates and values above
    U+10FFFF have none. *)
Definition utf8_encode_char (c : N) : option (list N) :=
  if (c <? 128)%N then Some [c]
  else if (c <? 2048)%N then Some [192 + c / 64; 128 + c mod 64]%N
  else if between 55296 c 57343 then None
  else if (c <? 65536)%N
  then Some [224 + c / 4096; 128 + (c / 64) mod 64; 128 + c mod 64]%N
  else if (c <? 1114112)%N
  then Some [240 + c / 262144; 128 + (c / 4096) mod 64;
             128 + (c / 64) mod 64; 128 + c mod 64]%N
  else None.

Fixpoint utf8_encode (s : pystr) : option (list N) :=
  match s with
  | [] => Some []
  | c :: s' =>
      match utf8_encode_char c, utf8_encode s' with
      | Some bs, Some r => Some (bs ++ r)
      | _, _ => None
      end
  end.

(** ** [urllib.parse.quote] *)

(** The bytes [quote] leaves alone: letters, digits, [_.-~] and the
    default [safe='/']. *)
Definition quote_safe (b : N) : bool :=
  (between 65 b 90 || between 97 b 122 || between 48 b 57
   || (b =? 95) || (b =? 46) || (b =? 45) || (b =? 126) || (b =? 47))%N.

Definition hex_digit (d : N) : N :=
  if (d <? 10)%N then (48 + d)%N else (55 + d)%N.

Definition quote_byte (b : N) : pystr :=
  if quote_safe b then [b]
  else [37; hex_digit (b / 16); hex_digit (b mod 16)]%N.

(** [parse.quote(s)]: the UTF-8 bytes of [s], each percent-encoded
    unless safe. *)
Definition quote (s : pystr) : outcome pystr :=
  match utf8_encode s with
  | Some bs => Returns (flat_map quote_byte bs)
  | None => Raises UnicodeEncodeError
  end.

(** ** Python runtime: values *)

(** The values the embedded data can denote.  A float keeps the text of
    its literal; a set lists its elements in iteration order. *)
Inductive pyval : Type :=
| PNone
| PBool (b : bool)
| PInt (z : Z)
| PFloat (literal : pystr)
| PStr (s : pystr)
| PList (l : list pyval)
| PTuple (l : list pyval)
| PSet (l : list pyval)
| PDict (items : list (pyval * pyval)).

(** [list(v)]. *)
Definition py_list (v : pyval) : outcome (list pyval) :=
  match v with
  | PList l | PTuple l | PSet l => Returns l
  | PDict items => Returns (map fst items)
  | PStr s => Returns (map (fun c => PStr [c]) s)
  | PNone | PBool _ | PInt _ | PFloat _ => Raises TypeError
  end.

(** Whether a dict key is the string [k]. *)
Definition key_is (k : pystr) (key : pyval) : bool :=
  match key with
  | PStr s => str_eqb s k
  | _ => false
  end.

Fixpoint dict_get (items : list (pyval * pyval)) (k : pystr) : option pyval :=
  match items with
  | [] => None
  | (key, v) :: items' => if key_is k key then Some v else dict_get items' k
  end.

(** [v[k]] for a string key [k]: KeyError on a dict without the key,
    TypeError on every value that is not a dict. *)
Definition getitem (v : pyval) (k : pystr) : outcome pyval :=
  match v with
  | PDict items =>
      match dict_get items k with
      | Some x => Returns x
      | None => Raises KeyError
      end
  | _ => Raises TypeError
  end.

(** [prefix + v] for a string [prefix]. *)
Definition str_add (prefix : pystr) (v : pyval) : outcome pystr :=
  match v with
  | PStr s => Returns (prefix ++ s)
  | _ => Raises TypeError
  end.

(** ** The [requests] library *)

(** A header dictionary: keys compare without regard to case, an update
    keeps the position of an existing key. *)
Definition header_dict : Type := list (pystr * pystr).

Fixpoint header_get (h : header_dict) (k : pystr) : option pystr :=
  match h with
  | [] => None
  | (k', v) :: h' =>
      if str_eqb (lower k') (lower k) then Some v else header_get h' k
  end.

Fixpoint header_set (h : header_dict) (k v : pystr) : header_dict :=
  match h with
  | [] => [(k, v)]
  | (k', v') :: h' =>
      if str_eqb (lower k') (lower k) then (k, v) :: h'
      else (k', v') :: header_set h' k v
  end.

(** [d.update(other)]. *)
Definition header_update (h other : header_dict) : header_dict :=
  fold_left (fun acc kv => header_set acc (fst kv) (snd kv)) other h.

Record request : Type := mk_request {
  req_method : pystr;
  req_url : pystr;
  req_headers : header_dict
}.

(** A response: its headers, and its body, which is read when
    [resp.content] is first used; [None] is a body whose reading raises
    a RequestException. *)
Record response : Type := mk_response {
  resp_headers : header_dict;
  resp_content : option bytes
}.

(** What [requests.get] does with a request: it raises a
    RequestException, it raises an exception that is none (the
    LocationParseError of urllib3, a ValueError, for a host name with a
    label that is too long), or it returns a response. *)
Inductive reply : Type :=
| RequestException
| OtherException (e : exn)
| Response (resp : response).

(** ** The BeautifulSoup tree *)

Inductive node : Type :=
| Tag (name : pystr) (attrs : list (pystr * pystr)) (contents : list node)
| NavigableString (s : pystr).

(** Everything below a node, in document order. *)
Fixpoint descendants (n : node) : list node :=
  match n with
  | Tag _ _ cs =>
      (fix walk (l : list node) : list node :=
         match l with
         | [] => []
         | c :: l' => c :: descendants c ++ walk l'
         end) cs
  | NavigableString _ => []
  end.

Definition is_tag (name : pystr) (n : node) : bool :=
  match n with
  | Tag name' _ _ => str_eqb name' name
  | NavigableString _ => false
  end.

(** [n.find_all(name)]. *)
Definition find_all (n : node) (name : pystr) : list node :=
  filter (is_tag name) (descendants n).

(** [n.find(name)]: the first match, or [None]. *)
Definition find_tag (n : node) (name : pystr) : option node :=
  hd_error (find_all n name).

(** [n.string]: the text of a tag with exactly one child, looked for
    through single-child tags; [None] otherwise. *)
Fixpoint tag_string (n : node) : option pystr :=
  match n with
  | NavigableString s => Some s
  | Tag _ _ [c] => tag_string c
  | Tag _ _ _ => None
  end.

Fixpoint attrs_get (attrs : list (pystr * pystr)) (k : pystr) : option pystr :=
  match attrs with
  | [] => None
  | (k', v) :: attrs' => if str_eqb k' k then Some v else attrs_get attrs' k
  end.

(** [n.attrs[k]]. *)
Definition attr (n : node) (k : pystr) : outcome pystr :=
  match n with
  | Tag _ attrs _ =>
      match attrs_get attrs k with
      | Some v => Returns v
      | None => Raises KeyError
      end
  | NavigableString _ => Raises AttributeError
  end.

(** ** The records of the program *)

Module Anime.
Record t : Type := mk { name : pyval; url : pystr }.
End Anime.

Module Character.
(** [seiyuu] is the reference back to the voice actor, kept as the
    actor's url. *)
Record t : Type := mk {
  seiyuu : pystr;
  name : pystr;
  role : pystr;
  url : pystr;
  anime : list Anime.t
}.
End Character.

Module AnimeList.
Record t : Type := mk {
  username : pystr;
  url : pystr;
  anime : list Anime.t;
  anime_details : list pyval;
  is_valid : bool
}.
End AnimeList.

Module Seiyuu.
Record t : Type := mk {
  url : pystr;
  characters : list Character.t
}.
End Seiyuu.

(** [[f(x) for x in l]], stopping at the first exception. *)
Fixpoint comprehension {A B : Type} (f : A -> outcome B) (l : list A)
  : outcome (list B) :=
  match l with
  | [] => Returns []
  | x :: l' =>
      y <- f x ;;
      ys <- comprehension f l' ;;
      Returns (y :: ys)
  end.

(** A [dict] whose keys are strings or [None], in insertion order. *)
Definition name_dict : Type := list (option pystr * pystr).

Definition key_eqb (a b : option pystr) : bool :=
  match a, b with
  | Some s, Some t => str_eqb s t
  | None, None => true
  | _, _ => false
  end.

(** [d[k] = v]. *)
Fixpoint setitem (d : name_dict) (k : option pystr) (v : pystr) : name_dict :=
  match d with
  | [] => [(k, v)]
  | (k', v') :: d' =>
      if key_eqb k' k then (k', v) :: d' else (k', v') :: setitem d' k v
  end.

Fixpoint name_dict_get (d : name_dict) (k : option pystr) : outcome pystr :=
  match d with
  | [] => Raises KeyError
  | (k', v) :: d' => if key_eqb k' k then Returns v else name_dict_get d' k
  end.

(** ** The engine *)

Definition origin : pystr := str "https://myanimelist.net".

(** The marker of the single-profile short-circuit: the title of a
    results-listing page. *)
Definition search_title : pystr := str "Search People - MyAnimeList.net" ++ [10%N].

Definition user_agent : pystr :=
  str "Mozilla/5.0 (X11; Ubuntu; Linux x86_64; rv:52.0) Gecko/20100101 Firefox/52.0".

(** The table [r] of [load_anime_list], as pairs. *)
Definition r : list (pystr * pystr) :=
  [ (str "&quot;", [34%N]);
    (str "null", str "None");
    (str "true", str "True");
    (str "false", str "False");
    ([92%N], []) ].

Section Engine.

(** The installed [requests]: its version and the encodings it
    accepts. *)
Variable requests_version : pystr.
Variable accept_encoding : pystr.

(** The network, as [requests] sees it. *)
Variable network : request -> reply.

(** The tree builder behind [BeautifulSoup(markup, 'html.parser')]. *)
Variable html_parser : bytes -> outcome node.

(** The builtin [eval]. *)
Variable eval : pystr -> outcome pyval.

(** [requests.utils.default_headers()]: a fresh dictionary at each
    call. *)
Definition default_headers : header_dict :=
  [ (str "User-Agent", str "python-requests/" ++ requests_version);
    (str "Accept-Encoding", accept_encoding);
    (str "Accept", str "*/*");
    (str "Connection", str "keep-alive") ].

(** The module-level [headers]. *)
Definition headers : header_dict :=
  header_update default_headers [(str "User-Agent", user_agent)].

(** The request [requests.get(url, headers=kw, stream=True)] sends: a
    new session's headers are [default_headers()], updated with the
    [headers] keyword when there is one. *)
Definition get_request (url : pystr) (kw : option header_dict) : request :=
  mk_request (str "GET") url
    (match kw with
     | None => default_headers
     | Some h => header_update default_headers h
     end).

Definition requests_get (url : pystr) (kw : option header_dict) : reply :=
  network (get_request url kw).

(** The request [simple_get(url)] sends: [requests.get(url, stream=True)]. *)
Definition simple_get_request (url : pystr) : request := get_request url None.

(** The subscript raises KeyError on a response without the header;
    past it [content_type] is a string, so that the test
    [content_type is not None] holds. *)
Definition is_good_response (resp : response) : outcome bool :=
  match header_get (resp_headers resp) (str "Content-Type") with
  | None => Raises KeyError
  | Some v =>
      let content_type := lower v in
      Returns (Z.ltb (-1) (find content_type (str "html") 0))
  end.

(** [None] is Python's [None]; the message printed on a
    RequestException is left out.  An exception that is no
    RequestException is not caught. *)
Definition simple_get (url : pystr) : outcome (option bytes) :=
  match requests_get url None with
  | RequestException => Returns None
  | OtherException e => Raises e
  | Response resp =>
      good <- is_good_response resp ;;
      if (good : bool) then
        match resp_content resp with
        | Some body => Returns (Some body)
        | None => Returns None
        end
      else Returns None
  end.

(** *** AnimeList *)

(** The text between the marker and the first closing bracket:
    [mylist[i:mylist.find(']',i)-1]] with
    [i = mylist.find('data-items')+14]. *)
Definition locate (mylist : pystr) : pystr :=
  let i := (find mylist (str "data-items") 0 + 14)%Z in
  slice mylist i (find mylist (str "]") (Z.to_nat i) - 1)%Z.

(** The replacement loop over [r]. *)
Definition substitute (mylist : pystr) : pystr :=
  fold_left (fun acc p => replace acc (fst p) (snd p)) r mylist.

Definition make_anime (A : pyval) : outcome Anime.t :=
  title <- getitem A (str "anime_title") ;;
  path <- getitem A (str "anime_url") ;;
  u <- str_add origin path ;;
  Returns (Anime.mk title u).

(** [load_anime_list] from the result of the fetch on. *)
Definition load_fetched (self : AnimeList.t) (fetched : option bytes)
  : outcome AnimeList.t :=
  match fetched with
  | None => Returns self
  | Some raw =>
      mylist <- decode raw ;;
      let mylist := locate mylist in
      let mylist := str "{" ++ mylist ++ str "}" in
      let mylist := substitute mylist in
      v <- eval mylist ;;
      details <- py_list v ;;
      entries <- comprehension make_anime details ;;
      Returns (AnimeList.mk (AnimeList.username self) (AnimeList.url self)
                            entries details true)
  end.

Definition load_anime_list (self : AnimeList.t) : outcome AnimeList.t :=
  fetched <- simple_get (AnimeList.url self) ;;
  load_fetched self fetched.

(** [AnimeList(username)]. *)
Definition new_AnimeList (username : pystr) : outcome AnimeList.t :=
  load_anime_list
    (AnimeList.mk username (origin ++ str "/animelist/" ++ username)
                  [] [] false).

(** *** Seiyuu *)

(** [BeautifulSoup(markup, 'html.parser')]: the constructor takes the
    length of [markup], a TypeError on [None]. *)
Definition BeautifulSoup (markup : option bytes) : outcome node :=
  match markup with
  | None => Raises TypeError
  | Some b => html_parser b
  end.

(** What one row of the roles table holds. *)
Record row_data : Type := mk_row {
  a_name : pystr;
  a_url : pystr;
  c_name : pystr;
  c_role : pystr;
  c_url : pystr
}.

(** [tag.find(name).string.strip()]. *)
Definition find_text (tag : node) (name : pystr) : outcome pystr :=
  t <- attr_of (find_tag tag name) ;;
  s <- attr_of (tag_string t) ;;
  Returns (strip s).

(** [tag.find('a').attrs['href']]. *)
Definition find_href (tag : node) : outcome pystr :=
  t <- attr_of (find_tag tag (str "a")) ;;
  attr t (str "href").

(** The five reads at the head of the loop body. *)
Definition read_row (row : node) : outcome row_data :=
  let tds := find_all row (str "td") in
  td1 <- index tds 1 ;;
  an <- find_text td1 (str "a") ;;
  au <- find_href td1 ;;
  td2 <- index tds 2 ;;
  cn <- find_text td2 (str "a") ;;
  cr <- find_text td2 (str "div") ;;
  cu <- find_href td2 ;;
  Returns (mk_row an au cn cr cu).

(** The [else] branch: the first character with the url gets the
    anime unless it has its url already. *)
Fixpoint add_anime (characters : list Character.t) (d : row_data)
  : list Character.t :=
  match characters with
  | [] => []
  | c :: rest =>
      if str_eqb (Character.url c) (c_url d) then
        (if negb (str_in (a_url d) (map Anime.url (Character.anime c)))
         then Character.mk (Character.seiyuu c) (Character.name c)
                (Character.role c) (Character.url c)
                (Character.anime c ++ [Anime.mk (PStr (a_name d)) (a_url d)])
         else c) :: rest
      else c :: add_anime rest d
  end.

(** The [if]/[else] of the loop body. *)
Definition link (self_url : pystr) (characters : list Character.t)
           (d : row_data) : list Character.t :=
  if negb (str_in (c_url d) (map Character.url characters)) then
    characters ++
      [Character.mk self_url (c_name d) (c_role d) (c_url d)
                    [Anime.mk (PStr (a_name d)) (a_url d)]]
  else add_anime characters d.

(** The states [self.characters] goes through in one turn of the
    loop: the new character is appended before its first anime is. *)
Definition link_states (self_url : pystr) (characters : list Character.t)
           (d : row_data) : list (list Character.t) :=
  if negb (str_in (c_url d) (map Character.url characters)) then
    [ characters ++ [Character.mk self_url (c_name d) (c_role d) (c_url d) []];
      link self_url characters d ]
  else [ link self_url characters d ].

(** The loop over the rows. *)
Fixpoint load_rows (self_url : pystr) (characters : list Character.t)
         (rows : list node) : outcome (list Character.t) :=
  match rows with
  | [] => Returns characters
  | row :: rows' =>
      d <- read_row row ;;
      load_rows self_url (link self_url characters d) rows'
  end.

(** From the parsed page on: the loop goes on from [self.characters]. *)
Definition load_soup (self : Seiyuu.t) (soup : node)
  : outcome (list Character.t) :=
  table <- index (find_all soup (str "table")) 1 ;;
  load_rows (Seiyuu.url self) (Seiyuu.characters self)
            (find_all table (str "tr")).

Definition load_seiyuu (self : Seiyuu.t) : outcome Seiyuu.t :=
  fetched <- simple_get (Seiyuu.url self) ;;
  soup <- BeautifulSoup fetched ;;
  characters <- load_soup self soup ;;
  Returns (Seiyuu.mk (Seiyuu.url self) characters).

(** [Seiyuu(url)]. *)
Definition new_Seiyuu (url : pystr) : outcome Seiyuu.t :=
  load_seiyuu (Seiyuu.mk url []).

(** *** search_seiyuu *)

(** The single-profile page: [{soup.find('h1').string: ...}]. *)
Definition single_profile (soup : node) : outcome name_dict :=
  h1 <- attr_of (find_tag soup (str "h1")) ;;
  table <- attr_of (find_tag soup (str "table")) ;;
  td <- index (find_all table (str "td")) 1 ;;
  div <- index (find_all td (str "div")) 2 ;;
  a <- attr_of (find_tag div (str "a")) ;;
  href <- attr a (str "href") ;;
  Returns [(tag_string h1, href)].

(** The loop over the result rows; the right-hand side of the
    assignment is evaluated before the key. *)
Fixpoint search_rows (seiyuu : name_dict) (rows : list node)
  : outcome name_dict :=
  match rows with
  | [] => Returns seiyuu
  | row :: rows' =>
      a0 <- index (find_all row (str "a")) 0 ;;
      href <- attr a0 (str "href") ;;
      a1 <- index (find_all row (str "a")) 1 ;;
      search_rows (setitem seiyuu (tag_string a1) (origin ++ href)) rows'
  end.

(** From the parsed page on. *)
Definition search_soup (soup : node) : outcome name_dict :=
  let seiyuu : name_dict := [] in
  title <- attr_of (find_tag soup (str "title")) ;;
  if negb (key_eqb (tag_string title) (Some search_title)) then
    single_profile soup
  else
    table <- attr_of (find_tag soup (str "table")) ;;
    let rows := find_all table (str "tr") in
    match rows with
    | [row] =>
        match find_tag row (str "a") with
        | None => Returns seiyuu
        | Some _ => search_rows seiyuu rows
        end
    | _ => search_rows seiyuu rows
    end.

Definition search_url (quoted : pystr) : pystr :=
  origin ++ str "/people.php?q=" ++ quoted ++ str "&cat=person".

Definition search_seiyuu (search : pystr) : outcome name_dict :=
  q <- quote search ;;
  fetched <- simple_get (search_url q) ;;
  soup <- BeautifulSoup fetched ;;
  search_soup soup.

(** *** Main.load_char_list *)

(** The test that sends the loop to [continue]. *)
Definition skipped (anime_list : option AnimeList.t) (c : Character.t) : bool :=
  match anime_list with
  | None => false
  | Some l =>
      negb (existsb
              (fun item => str_in item (map Anime.url (AnimeList.anime l)))
              (map Anime.url (Character.anime c)))
  end.

(** The characters the loop gets past the test with, each with its
    index [i]. *)
Fixpoint kept_from (anime_list : option AnimeList.t) (i : nat)
         (characters : list Character.t) : list (nat * Character.t) :=
  match characters with
  | [] => []
  | c :: rest =>
      if skipped anime_list c then kept_from anime_list (S i) rest
      else (i, c) :: kept_from anime_list (S i) rest
  end.

(** What is put on the grid for one character: its name at row [i],
    and one label per anime at rows [0, 1, ...] of its frame. *)
Record result_row : Type := mk_result {
  grid_row : nat;
  c_label : pystr;
  a_labels : list (nat * pyval)
}.

Definition render (p : nat * Character.t) : result_row :=
  let c := snd p in
  mk_result (fst p) (Character.name c)
    (combine (seq 0 (length (Character.anime c)))
             (map Anime.name (Character.anime c))).

Definition load_char_list (anime_list : option AnimeList.t)
           (seiyuu_list : name_dict) (k : pystr) : outcome (list result_row) :=
  u <- name_dict_get seiyuu_list (Some k) ;;
  s <- new_Seiyuu u ;;
  Returns (map render (kept_from anime_list 0 (Seiyuu.characters s))).

End Engine.

(** ** [eval] on literals

    An evaluator for the displays the cleaned text is made of: string
    literals without escapes, decimal integers, [None], [True], [False],
    list displays, dict displays with string keys, and a top-level
    comma-separated sequence, which is a tuple.  [None] is a text outside
    this fragment. *)

Fixpoint skip_spaces (s : pystr) : pystr :=
  match s with
  | c :: s' => if (c =? 32)%N then skip_spaces s' else s
  | [] => []
  end.

(** The body of a string literal opened by the quote [q]: no backslash,
    no line break, no null character. *)
Fixpoint read_string (q : N) (s : pystr) : option (pystr * pystr) :=
  match s with
  | [] => None
  | c :: s' =>
      if (c =? q)%N then Some ([], s')
      else if ((c =? 92) || (c =? 10) || (c =? 13) || (c =? 0))%N then None
      else match read_string q s' with
           | Some (t, rest) => Some (c :: t, rest)
           | None => None
           end
  end.

Definition is_digit (c : N) : bool := between 48 c 57.

(** Letters, digits and the underscore, and the dot of a float. *)
Definition is_word (c : N) : bool :=
  (between 65 c 90 || between 97 c 122 || between 48 c 57
   || (c =? 95) || (c =? 46) || (128 <=? c))%N.

Fixpoint read_digits (acc : Z) (s : pystr) : Z * pystr :=
  match s with
  | c :: s' =>
      if is_digit c then read_digits (acc * 10 + Z.of_N (c - 48)) s'
      else (acc, s)
  | [] => (acc, [])
  end.

(** The next token is over: nothing that continues a word follows. *)
Definition word_ends (s : pystr) : bool :=
  match s with
  | c :: _ => negb (is_word c)
  | [] => true
  end.

Definition read_int (s : pystr) : option (pyval * pystr) :=
  match s with
  | c :: s' =>
      let (z, rest) := read_digits 0 s in
      if word_ends rest && negb ((c =? 48)%N && negb (word_ends s'))
      then Some (PInt z, rest)
      else None
  | [] => None
  end.

Definition read_keyword (s : pystr) : option (pyval * pystr) :=
  if startswith s (str "None") && word_ends (skipn 4 s)
  then Some (PNone, skipn 4 s)
  else if startswith s (str "True") && word_ends (skipn 4 s)
  then Some (PBool true, skipn 4 s)
  else if startswith s (str "False") && word_ends (skipn 5 s)
  then Some (PBool false, skipn 5 s)
  else None.

(** [s] is at the end of a sequence: at the closing bracket [close], or,
    for the top level, at the end of the text. *)
Definition at_close (close : option N) (s : pystr) : option pystr :=
  match close, skip_spaces s with
  | None, [] => Some []
  | Some b, c :: rest => if (c =? b)%N then Some rest else None
  | _, _ => None
  end.

Section Sequences.

Variable value : pystr -> option (pyval * pystr).

(** One or more values separated by commas, a trailing comma allowed. *)
Fixpoint parse_seq (close : option N) (n : nat) (s : pystr)
  : option (list pyval * pystr) :=
  match n with
  | O => None
  | S n' =>
      match value s with
      | None => None
      | Some (v, after) =>
          match at_close close after with
          | Some rest => Some ([v], rest)
          | None =>
              match skip_spaces after with
              | c :: more =>
                  if (c =? 44)%N then
                    match at_close close more with
                    | Some rest => Some ([v], rest)
                    | None =>
                        match parse_seq close n' more with
                        | Some (vs, rest) => Some (v :: vs, rest)
                        | None => None
                        end
                    end
                  else None
              | [] => None
              end
          end
      end
  end.

(** One or more [key: value] items with string keys. *)
Fixpoint parse_items (n : nat) (s : pystr)
  : option (list (pyval * pyval) * pystr) :=
  match n with
  | O => None
  | S n' =>
      match value s with
      | Some (PStr k, after_key) =>
          match skip_spaces after_key with
          | c :: s1 =>
              if (c =? 58)%N then
                match value s1 with
                | None => None
                | Some (v, after) =>
                    match at_close (Some 125%N) after with
                    | Some rest => Some ([(PStr k, v)], rest)
                    | None =>
                        match skip_spaces after with
                        | c' :: more =>
                            if (c' =? 44)%N then
                              match at_close (Some 125%N) more with
                              | Some rest => Some ([(PStr k, v)], rest)
                              | None =>
                                  match parse_items n' more with
                                  | Some (kvs, rest) =>
                                      Some ((PStr k, v) :: kvs, rest)
                                  | None => None
                                  end
                              end
                            else None
                        | [] => None
                        end
                    end
                end
              else None
          | [] => None
          end
      | _ => None
      end
  end.

End Sequences.

(** [d[k] = v] while a dict display is built: a repeated key keeps its
    place and takes the later value. *)
Fixpoint dict_set (items : list (pyval * pyval)) (k : pystr) (v : pyval)
  : list (pyval * pyval) :=
  match items with
  | [] => [(PStr k, v)]
  | (key, v') :: items' =>
      if key_is k key then (key, v) :: items'
      else (key, v') :: dict_set items' k v
  end.

Definition build_dict (kvs : list (pyval * pyval)) : list (pyval * pyval) :=
  fold_left (fun d kv =>
               match fst kv with
               | PStr k => dict_set d k (snd kv)
               | _ => d
               end) kvs [].

Fixpoint parse_value (fuel : nat) (s : pystr) : option (pyval * pystr) :=
  match fuel with
  | O => None
  | S fuel' =>
      match skip_spaces s with
      | [] => None
      | c :: s' =>
          if ((c =? 34) || (c =? 39))%N then
            match read_string c s' with
            | Some (t, rest) => Some (PStr t, rest)
            | None => None
            end
          else if (c =? 91)%N then
            match at_close (Some 93%N) s' with
            | Some rest => Some (PList [], rest)
            | None =>
                match parse_seq (parse_value fuel') (Some 93%N) fuel' s' with
                | Some (vs, rest) => Some (PList vs, rest)
                | None => None
                end
            end
          else if (c =? 123)%N then
            match at_close (Some 125%N) s' with
            | Some rest => Some (PDict [], rest)
            | None =>
                match parse_items (parse_value fuel') fuel' s' with
                | Some (kvs, rest) => Some (PDict (build_dict kvs), rest)
                | None => None
                end
            end
          else if is_digit c then read_int (c :: s')
          else read_keyword (c :: s')
      end
  end.

(** The whole text: one value, or a tuple when a comma follows it. *)
Definition eval_literal (s : pystr) : option pyval :=
  let fuel := S (length s) in
  match parse_value fuel s with
  | None => None
  | Some (v, after) =>
      match skip_spaces after with
      | [] => Some v
      | c :: more =>
          if (c =? 44)%N then
            match at_close None more with
            | Some _ => Some (PTuple [v])
            | None =>
                match parse_seq (parse_value fuel) None fuel more with
                | Some (vs, _) => Some (PTuple (v :: vs))
                | None => None
                end
            end
          else None
      end
  end.

(** [eval] restricted to the fragment; [EvalError] stands for every
    text outside it. *)
Definition eval_fragment (s : pystr) : outcome pyval :=
  match eval_literal s with
  | Some v => Returns v
  | None => Raises EvalError
  end.

(** ** The window

    [Main] without its layout: the text of the message label, the
    contents of the two entries and of the listbox, the [state] option of
    the widgets [set_state] configures, what is shown in the results
    frame, and the attributes.  A method returns the window as it leaves
    it, with the exception it raised, if any: tkinter reports the
    exception of a callback and goes on. *)

Inductive widget_state : Type := normal | disabled.

Module Main.

Record t : Type := mk {
  message_label : pystr;
  user_var : pystr;
  user_button : widget_state;
  seiyuu_var : pystr;
  seiyuu_entry : widget_state;
  seiyuu_button : widget_state;
  seiyuu_listbox : list pystr;
  char_button : widget_state;
  results_frame : list result_row;
  anime_list : option AnimeList.t;
  seiyuu_list : name_dict;
  seiyuu : option Seiyuu.t;
  state : Z
}.

(** The five [config] calls of one branch of [set_state]. *)
Definition configure (self : t) (message : pystr)
           (user_b seiyuu_e seiyuu_b char_b : widget_state) : t :=
  mk message (user_var self) user_b (seiyuu_var self) seiyuu_e seiyuu_b
     (seiyuu_listbox self) char_b (results_frame self) (anime_list self)
     (seiyuu_list self) (seiyuu self) (state self).

Definition with_state (self : t) (n : Z) : t :=
  mk (message_label self) (user_var self) (user_button self) (seiyuu_var self)
     (seiyuu_entry self) (seiyuu_button self) (seiyuu_listbox self)
     (char_button self) (results_frame self) (anime_list self)
     (seiyuu_list self) (seiyuu self) n.

Definition with_message (self : t) (message : pystr) : t :=
  mk message (user_var self) (user_button self) (seiyuu_var self)
     (seiyuu_entry self) (seiyuu_button self) (seiyuu_listbox self)
     (char_button self) (results_frame self) (anime_list self)
     (seiyuu_list self) (seiyuu self) (state self).

Definition with_anime_list (self : t) (l : option AnimeList.t) : t :=
  mk (message_label self) (user_var self) (user_button self) (seiyuu_var self)
     (seiyuu_entry self) (seiyuu_button self) (seiyuu_listbox self)
     (char_button self) (results_frame self) l
     (seiyuu_list self) (seiyuu self) (state self).

Definition with_listbox (self : t) (items : list pystr) : t :=
  mk (message_label self) (user_var self) (user_button self) (seiyuu_var self)
     (seiyuu_entry self) (seiyuu_button self) items
     (char_button self) (results_frame self) (anime_list self)
     (seiyuu_list self) (seiyuu self) (state self).

Definition with_seiyuu_list (self : t) (d : name_dict) : t :=
  mk (message_label self) (user_var self) (user_button self) (seiyuu_var self)
     (seiyuu_entry self) (seiyuu_button self) (seiyuu_listbox self)
     (char_button self) (results_frame self) (anime_list self)
     d (seiyuu self) (state self).

Definition with_user_var (self : t) (s : pystr) : t :=
  mk (message_label self) s (user_button self) (seiyuu_var self)
     (seiyuu_entry self) (seiyuu_button self) (seiyuu_listbox self)
     (char_button self) (results_frame self) (anime_list self)
     (seiyuu_list self) (seiyuu self) (state self).

Definition with_seiyuu_var (self : t) (s : pystr) : t :=
  mk (message_label self) (user_var self) (user_button self) s
     (seiyuu_entry self) (seiyuu_button self) (seiyuu_listbox self)
     (char_button self) (results_frame self) (anime_list self)
     (seiyuu_list self) (seiyuu self) (state self).

Definition with_results (self : t) (s : Seiyuu.t) (rows : list result_row) : t :=
  mk (message_label self) (user_var self) (user_button self) (seiyuu_var self)
     (seiyuu_entry self) (seiyuu_button self) (seiyuu_listbox self)
     (char_button self) rows (anime_list self)
     (seiyuu_list self) (Some s) (state self).

Definition set_state (self : t) (n : Z) : t :=
  let self :=
    if (n =? 0)%Z then
      configure self (str "Load anime list from MAL username.")
                normal disabled disabled disabled
    else if (n =? 1)%Z then
      configure self (str "Search for voice actor.")
                disabled normal normal disabled
    else if (n =? 2)%Z then
      configure self (str "Select correct voice actor.")
                disabled normal disabled normal
    else self in
  with_state self n.

(** [__init__]: the attributes, the widgets as [create_widgets] makes
    them, then [set_state(0)]. *)
Definition init : t :=
  set_state (mk [] [] normal [] normal normal [] normal [] None [] None 0) 0.

Definition user_callback (self : t) : t := set_state self 0.

Definition seiyuu_callback (self : t) : t := set_state self 1.

Section Methods.

Variable requests_version accept_encoding : pystr.
Variable network : request -> reply.
Variable html_parser : bytes -> outcome node.
Variable eval : pystr -> outcome pyval.

Definition load_anime_list (self : t) : t * option exn :=
  let user_var := user_var self in
  if str_eqb (strip user_var) [] then
    (set_state (with_anime_list self None) 1, None)
  else
    match new_AnimeList requests_version accept_encoding network eval user_var with
    | Raises e => (self, Some e)
    | Returns l =>
        let self := with_anime_list self (Some l) in
        if negb (AnimeList.is_valid l) then
          (with_message (set_state self 0) (str "Error: invalid MAL username."),
           None)
        else (set_state self 1, None)
    end.

(** What [insert('end', s)] adds to the listbox: the call to Tk stops
    at an argument that is [None], so that a key [None] adds no item. *)
Definition inserted (s : option pystr) : list pystr :=
  match s with
  | Some name => [name]
  | None => []
  end.

Definition load_seiyuu_list (self : t) : t * option exn :=
  let self := with_listbox self [] in
  match search_seiyuu requests_version accept_encoding network html_parser
                      (seiyuu_var self) with
  | Raises e => (self, Some e)
  | Returns d =>
      let self := with_seiyuu_list self d in
      if (length (map fst d) =? 0)%nat then
        (with_message (set_state self 1) (str "Error: no voice actors found."),
         None)
      else
        let self := set_state self 2 in
        (with_listbox self
           (seiyuu_listbox self ++ flat_map inserted (map fst d)), None)
  end.

(** [load_char_list], for the string [k] the listbox gives for the
    selection. *)
Definition load_char_list (self : t) (k : pystr) : t * option exn :=
  match name_dict_get (seiyuu_list self) (Some k) with
  | Raises e => (self, Some e)
  | Returns u =>
      match new_Seiyuu requests_version accept_encoding network html_parser u with
      | Raises e => (self, Some e)
      | Returns s =>
          (with_results self s
             (map render (kept_from (anime_list self) 0 (Seiyuu.characters s))),
           None)
      end
  end.

(** What the user can do. *)
Inductive event : Type :=
| type_user (s : pystr)
| type_seiyuu (s : pystr)
| click_load
| click_search
| click_characters (k : pystr).

(** A disabled widget takes no input. *)
Definition enabled (self : t) (ev : event) : bool :=
  match ev with
  | type_user _ => true
  | type_seiyuu _ =>
      match seiyuu_entry self with normal => true | disabled => false end
  | click_load =>
      match user_button self with normal => true | disabled => false end
  | click_search =>
      match seiyuu_button self with normal => true | disabled => false end
  | click_characters _ =>
      match char_button self with normal => true | disabled => false end
  end.

(** The window after the callback of an event. *)
Definition fire (self : t) (ev : event) : t :=
  match ev with
  | type_user s => user_callback (with_user_var self s)
  | type_seiyuu s => seiyuu_callback (with_seiyuu_var self s)
  | click_load => fst (load_anime_list self)
  | click_search => fst (load_seiyuu_list self)
  | click_characters k => fst (load_char_list self k)
  end.

(** The windows a session can show. *)
Inductive reachable : t -> Prop :=
| reachable_init : reachable init
| reachable_fire : forall self ev,
    reachable self -> enabled self ev = true -> reachable (fire self ev).

End Methods.

End Main.


(** * Properties *)

(** ** Strings *)

Lemma str_eqb_eq (s t : pystr) : str_eqb s t = true <-> s = t.
Proof.
  revert t; induction s as [|a s IH]; intros [|b t]; simpl;
    try (split; [discriminate | discriminate]); try tauto.
  rewrite andb_true_iff, N.eqb_eq, IH.
  split; [intros [-> ->]; reflexivity | intros E; injection E; auto].
Qed.

Lemma str_eqb_refl (s : pystr) : str_eqb s s = true.
Proof. apply str_eqb_eq; reflexivity. Qed.

Lemma str_eqb_neq (s t : pystr) : str_eqb s t = false <-> s <> t.
Proof.
  rewrite <- str_eqb_eq. destruct (str_eqb s t); split; congruence.
Qed.

Lemma str_in_In (x : pystr) (l : list pystr) : str_in x l = true <-> In x l.
Proof.
  unfold str_in. rewrite existsb_exists. split.
  - intros (y & Hy & E). apply str_eqb_eq in E. subst; assumption.
  - intros H. exists x. split; [assumption | apply str_eqb_refl].
Qed.

Lemma str_in_not_In (x : pystr) (l : list pystr) :
  str_in x l = false <-> ~ In x l.
Proof.
  rewrite <- str_in_In. destruct (str_in x l); split; congruence.
Qed.

(** ** The intersection filter *)

(** The urls of a character's anime meet the urls of the anime list. *)
Definition shares_url (l : AnimeList.t) (c : Character.t) : Prop :=
  exists u, In u (map Anime.url (Character.anime c))
            /\ In u (map Anime.url (AnimeList.anime l)).

Lemma skipped_spec (l : AnimeList.t) (c : Character.t) :
  skipped (Some l) c = false <-> shares_url l c.
Proof.
  unfold skipped, shares_url. rewrite negb_false_iff, existsb_exists.
  split; intros (u & Hu & H); exists u; split; trivial;
    apply str_in_In; assumption.
Qed.

Lemma kept_from_filter (anime_list : option AnimeList.t) (cs : list Character.t) :
  forall i,
    map snd (kept_from anime_list i cs)
    = filter (fun c => negb (skipped anime_list c)) cs.
Proof.
  induction cs as [|c cs IH]; intros i; simpl; [reflexivity|].
  destruct (skipped anime_list c); simpl; rewrite IH; reflexivity.
Qed.

Lemma render_labels (p : nat * Character.t) :
  map snd (a_labels (render p)) = map Anime.name (Character.anime (snd p)).
Proof.
  unfold render; simpl.
  rewrite <- (length_map Anime.name).
  generalize (map Anime.name (Character.anime (snd p))) as names.
  intros names. generalize 0%nat.
  induction names as [|x names IH]; intros n; simpl; [reflexivity|].
  rewrite IH; reflexivity.
Qed.

(** C1.  With an anime list loaded, the loop of [load_char_list] gets a
    character past its test exactly when one of the urls of the
    character's anime is a url of the list; the characters it keeps are
    the input filtered in place, in the input order; and what is shown
    for a kept character is the character itself with every one of its
    anime, matched or not. *)
Theorem load_char_list_filter (l : AnimeList.t) (cs : list Character.t) :
  let kept := map snd (kept_from (Some l) 0 cs) in
  (forall c, In c kept <-> In c cs /\ shares_url l c)
  /\ kept = filter (fun c => negb (skipped (Some l) c)) cs
  /\ (forall c, negb (skipped (Some l) c) = true <-> shares_url l c)
  /\ map (fun w => (c_label w, map snd (a_labels w)))
         (map render (kept_from (Some l) 0 cs))
     = map (fun c => (Character.name c, map Anime.name (Character.anime c)))
           kept.
Proof.
  cbv zeta. rewrite kept_from_filter.
  assert (K : forall c, negb (skipped (Some l) c) = true <-> shares_url l c).
  { intros c. rewrite negb_true_iff. apply skipped_spec. }
  repeat split.
  - apply filter_In in H. tauto.
  - apply K. apply filter_In in H. tauto.
  - intros [Hin Hs]. apply filter_In. split; [assumption | apply K; assumption].
  - apply K.
  - apply K.
  - rewrite <- kept_from_filter with (i := 0%nat).
    rewrite !map_map. apply map_ext. intros p.
    rewrite render_labels. reflexivity.
Qed.

(** The example of the specification: the list holds [A]; [x] appears
    in [A], [y] in [B]; only [x] is kept. *)
Example filter_with_catalog :
  let entry (u : pystr) := Anime.mk (PStr u) u in
  let l := AnimeList.mk (str "user") (str "list") [entry (str "A")] [] true in
  let x := Character.mk (str "s") (str "x") (str "Main") (str "x")
                        [entry (str "A")] in
  let y := Character.mk (str "s") (str "y") (str "Main") (str "y")
                        [entry (str "B")] in
  kept_from (Some l) 0 [x; y] = [(0%nat, x)].
Proof. reflexivity. Qed.

(** Without an anime list nothing is skipped. *)
Lemma kept_from_no_list (cs : list Character.t) :
  map snd (kept_from None 0 cs) = cs.
Proof.
  rewrite kept_from_filter. simpl.
  induction cs as [|c cs IH]; simpl; [reflexivity | rewrite IH; reflexivity].
Qed.

(** ** Linking *)

(** The character the [else] branch leaves in place of [c]. *)
Definition with_anime (c : Character.t) (d : row_data) : Character.t :=
  Character.mk (Character.seiyuu c) (Character.name c) (Character.role c)
    (Character.url c)
    (Character.anime c ++ [Anime.mk (PStr (a_name d)) (a_url d)]).

Lemma add_anime_urls (cs : list Character.t) (d : row_data) :
  map Character.url (add_anime cs d) = map Character.url cs.
Proof.
  induction cs as [|c cs IH]; simpl; [reflexivity|].
  destruct (str_eqb (Character.url c) (c_url d)).
  - destruct (negb _); reflexivity.
  - simpl. rewrite IH. reflexivity.
Qed.

Lemma add_anime_at (pre post : list Character.t) (c : Character.t) (d : row_data) :
  Character.url c = c_url d ->
  ~ In (c_url d) (map Character.url pre) ->
  add_anime (pre ++ c :: post) d
  = pre ++ (if str_in (a_url d) (map Anime.url (Character.anime c))
            then c else with_anime c d) :: post.
Proof.
  intros Hc. induction pre as [|p pre IH]; simpl; intros Hpre.
  - destruct (str_eqb (Character.url c) (c_url d)) eqn:E.
    + destruct (str_in _ _); reflexivity.
    + apply str_eqb_neq in E. tauto.
  - destruct (str_eqb (Character.url p) (c_url d)) eqn:E.
    + apply str_eqb_eq in E. tauto.
    + rewrite IH by tauto. reflexivity.
Qed.

Lemma link_new (self_url : pystr) (cs : list Character.t) (d : row_data) :
  ~ In (c_url d) (map Character.url cs) ->
  link self_url cs d
  = cs ++ [Character.mk self_url (c_name d) (c_role d) (c_url d)
                        [Anime.mk (PStr (a_name d)) (a_url d)]].
Proof.
  intros H. unfold link. apply str_in_not_In in H. rewrite H. reflexivity.
Qed.

Lemma link_known (self_url : pystr) (cs : list Character.t) (d : row_data) :
  In (c_url d) (map Character.url cs) ->
  link self_url cs d = add_anime cs d.
Proof.
  intros H. unfold link. apply str_in_In in H. rewrite H. reflexivity.
Qed.

(** The loop is the fold of [link] over the rows it could read. *)
Lemma load_rows_fold (self_url : pystr) (rows : list node) (ds : list row_data) :
  Forall2 (fun row d => read_row row = Returns d) rows ds ->
  forall cs,
    load_rows self_url cs rows = Returns (fold_left (link self_url) ds cs).
Proof.
  induction 1 as [|row d rows ds Hrow _ IH]; intros cs; simpl.
  - reflexivity.
  - rewrite Hrow. simpl. apply IH.
Qed.

(** C2.  One turn of the linking loop, for the row data [d] and the
    characters [cs] seen so far.  When the row's character url is new, a
    character is appended whose anime are the row's anime alone.  When
    the url is the one of [c] (the first with it), [c] gets the row's
    anime at the end of its anime if the anime's url is not among them,
    and nothing changes if it is.  So a page of two rows with the same
    character url and different anime urls gives one character with the
    two anime, in row order. *)
Theorem load_seiyuu_linking (self_url : pystr) (cs : list Character.t)
        (d : row_data) :
  (~ In (c_url d) (map Character.url cs) ->
   link self_url cs d
   = cs ++ [Character.mk self_url (c_name d) (c_role d) (c_url d)
                         [Anime.mk (PStr (a_name d)) (a_url d)]])
  /\ (forall pre c post,
         cs = pre ++ c :: post ->
         Character.url c = c_url d ->
         ~ In (c_url d) (map Character.url pre) ->
         (~ In (a_url d) (map Anime.url (Character.anime c)) ->
          link self_url cs d = pre ++ with_anime c d :: post)
         /\ (In (a_url d) (map Anime.url (Character.anime c)) ->
             link self_url cs d = cs))
  /\ (forall row1 row2 d2,
         read_row row1 = Returns d ->
         read_row row2 = Returns d2 ->
         c_url d2 = c_url d ->
         a_url d2 <> a_url d ->
         exists c,
           load_rows self_url [] [row1; row2] = Returns [c]
           /\ Character.url c = c_url d
           /\ Character.anime c = [Anime.mk (PStr (a_name d)) (a_url d);
                                   Anime.mk (PStr (a_name d2)) (a_url d2)]
           /\ length (Character.anime c) = 2%nat).
Proof.
  split; [apply link_new|]. split.
  - intros pre c post -> Hc Hpre.
    assert (Hin : In (c_url d) (map Character.url (pre ++ c :: post))).
    { rewrite map_app. apply in_or_app. right. left. assumption. }
    rewrite link_known by exact Hin.
    rewrite add_anime_at by assumption.
    split; intros Ha.
    + apply str_in_not_In in Ha. rewrite Ha. reflexivity.
    + apply str_in_In in Ha. rewrite Ha. reflexivity.
  - intros row1 row2 d2 H1 H2 Hc Ha.
    eexists. split.
    + rewrite load_rows_fold with (ds := [d; d2]) by
        (repeat constructor; assumption).
      simpl. unfold link at 2. simpl.
      unfold link. simpl. rewrite Hc, str_eqb_refl. simpl.
      apply str_eqb_neq in Ha. rewrite Ha. simpl. reflexivity.
    + simpl. auto.
Qed.

(** ** Uniqueness *)

(** No two characters share a url, and no two anime of one character
    share a url. *)
Definition unique (cs : list Character.t) : Prop :=
  NoDup (map Character.url cs)
  /\ Forall (fun c => NoDup (map Anime.url (Character.anime c))) cs.

(** The states of [self.characters] during the loop over [rows], in
    order, up to the first row that cannot be read. *)
Fixpoint load_trace (self_url : pystr) (cs : list Character.t)
         (rows : list node) : list (list Character.t) :=
  match rows with
  | [] => []
  | row :: rows' =>
      match read_row row with
      | Returns d =>
          link_states self_url cs d
            ++ load_trace self_url (link self_url cs d) rows'
      | Raises _ => []
      end
  end.

Lemma link_states_last (self_url : pystr) (cs : list Character.t) (d : row_data) :
  last (link_states self_url cs d) cs = link self_url cs d.
Proof.
  unfold link_states. destruct (negb _); reflexivity.
Qed.

Lemma last_default {A : Type} (x : A) (l : list A) (a b : A) :
  last (x :: l) a = last (x :: l) b.
Proof.
  revert x; induction l as [|y l IH]; intros x; [reflexivity|].
  change (last (y :: l) a = last (y :: l) b). apply IH.
Qed.

Lemma last_append {A : Type} (l1 l2 : list A) (d : A) :
  last (l1 ++ l2) d = last l2 (last l1 d).
Proof.
  induction l1 as [|a l1 IH]; [reflexivity|].
  destruct l1 as [|b l1].
  - destruct l2 as [|c l2]; [reflexivity|].
    change (last (c :: l2) d = last (c :: l2) a). apply last_default.
  - change (last ((b :: l1) ++ l2) d = last l2 (last (b :: l1) d)). apply IH.
Qed.

(** The trace ends in the list the loop returns. *)
Lemma load_trace_last (self_url : pystr) (rows : list node) :
  forall cs cs',
    load_rows self_url cs rows = Returns cs' ->
    last (load_trace self_url cs rows) cs = cs'.
Proof.
  induction rows as [|row rows IH]; simpl; intros cs cs' H.
  - congruence.
  - destruct (read_row row) as [d|e]; simpl in H; [|discriminate].
    rewrite last_append, link_states_last. apply IH. exact H.
Qed.

Lemma NoDup_snoc {A : Type} (l : list A) (x : A) :
  NoDup l -> ~ In x l -> NoDup (l ++ [x]).
Proof.
  induction 1 as [|y l Hy Hl IH]; simpl; intros Hx.
  - constructor; [tauto | constructor].
  - constructor.
    + rewrite in_app_iff. simpl. intuition congruence.
    + apply IH. tauto.
Qed.

Lemma add_anime_unique (cs : list Character.t) (d : row_data) :
  Forall (fun c => NoDup (map Anime.url (Character.anime c))) cs ->
  Forall (fun c => NoDup (map Anime.url (Character.anime c))) (add_anime cs d).
Proof.
  induction 1 as [|c cs Hc Hcs IH]; simpl; [constructor|].
  destruct (str_eqb (Character.url c) (c_url d)).
  - constructor; [|assumption].
    destruct (str_in (a_url d) (map Anime.url (Character.anime c))) eqn:E;
      simpl; [assumption|].
    rewrite map_app. simpl.
    apply NoDup_snoc; [assumption | apply str_in_not_In; assumption].
  - constructor; assumption.
Qed.

Lemma link_unique (self_url : pystr) (cs : list Character.t) (d : row_data) :
  unique cs -> unique (link self_url cs d).
Proof.
  intros [Hu Ha]. unfold link.
  destruct (str_in (c_url d) (map Character.url cs)) eqn:E; simpl.
  - split; [rewrite add_anime_urls; assumption | apply add_anime_unique; assumption].
  - split.
    + rewrite map_app. simpl.
      apply NoDup_snoc; [assumption | apply str_in_not_In; assumption].
    + apply Forall_app. split; [assumption|].
      repeat constructor. simpl. tauto.
Qed.

Lemma link_states_unique (self_url : pystr) (cs : list Character.t) (d : row_data) :
  unique cs -> Forall unique (link_states self_url cs d).
Proof.
  intros H. pose proof (link_unique self_url d H) as L.
  unfold link_states.
  destruct (str_in (c_url d) (map Character.url cs)) eqn:E; simpl.
  - repeat constructor; apply L.
  - constructor; [|repeat constructor; apply L].
    destruct H as [Hu Ha]. split.
    + rewrite map_app. simpl.
      apply NoDup_snoc; [assumption | apply str_in_not_In; assumption].
    + apply Forall_app. split; [assumption|].
      repeat constructor.
Qed.

(** Every state of the loop is unique, whether or not the loop gets to
    the end of the rows. *)
Lemma load_trace_unique (self_url : pystr) (rows : list node) :
  forall cs, unique cs -> Forall unique (load_trace self_url cs rows).
Proof.
  induction rows as [|row rows IH]; simpl; intros cs H; [constructor|].
  destruct (read_row row) as [d|e]; [|constructor].
  apply Forall_app. split.
  - apply link_states_unique; assumption.
  - apply IH. apply link_unique; assumption.
Qed.

Lemma load_rows_unique (self_url : pystr) (rows : list node) :
  forall cs cs',
    unique cs -> load_rows self_url cs rows = Returns cs' -> unique cs'.
Proof.
  induction rows as [|row rows IH]; simpl; intros cs cs' H E.
  - congruence.
  - destruct (read_row row) as [d|e]; simpl in E; [|discriminate].
    eapply IH; [|exact E]. apply link_unique; assumption.
Qed.

Lemma unique_nil : unique [].
Proof. split; constructor. Qed.

Lemma bind_returns {A B : Type} (m : outcome A) (k : A -> outcome B) (b : B) :
  bind m k = Returns b -> exists a, m = Returns a /\ k a = Returns b.
Proof.
  destruct m as [a|e]; simpl; [eauto | discriminate].
Qed.

Section Performer.

Variable requests_version accept_encoding : pystr.
Variable network : request -> reply.
Variable html_parser : bytes -> outcome node.

(** C6.  When [Seiyuu(url)] returns, its characters have pairwise
    distinct urls and the anime of each character have pairwise distinct
    urls; and the same holds of every state the list of characters went
    through while the rows were read, from the empty list on. *)
Theorem load_seiyuu_unique (url : pystr) (s : Seiyuu.t) :
  new_Seiyuu requests_version accept_encoding network html_parser url
  = Returns s ->
  unique (Seiyuu.characters s)
  /\ exists rows,
      load_rows url [] rows = Returns (Seiyuu.characters s)
      /\ Forall unique ([] :: load_trace url [] rows)
      /\ last (load_trace url [] rows) [] = Seiyuu.characters s.
Proof.
  unfold new_Seiyuu, load_seiyuu. simpl. intros H.
  apply bind_returns in H as (fetched & _ & H).
  apply bind_returns in H as (soup & _ & H).
  apply bind_returns in H as (cs & Hcs & H).
  injection H as <-. simpl.
  unfold load_soup in Hcs.
  apply bind_returns in Hcs as (table & _ & Hrows).
  split.
  - eapply load_rows_unique; [apply unique_nil | exact Hrows].
  - exists (find_all table (str "tr")). split; [exact Hrows|]. split.
    + constructor; [apply unique_nil|].
      apply load_trace_unique, unique_nil.
    + apply load_trace_last. exact Hrows.
Qed.

End Performer.

(** ** The fetcher *)

(** A site that answers the browser's [User-Agent] with [page] and
    every other client with a refusal that is no HTML. *)
Definition browsers_only (page : bytes) : request -> reply :=
  fun req =>
    match header_get (req_headers req) (str "User-Agent") with
    | Some ua =>
        if str_eqb ua user_agent
        then Response (mk_response [(str "Content-Type", str "text/html")]
                                   (Some page))
        else Response (mk_response [(str "Content-Type", str "text/plain")]
                                   (Some []))
    | None => RequestException
    end.

(** C3.  What [simple_get] returns is decided by the network's answer
    to one request, the GET of the url with the headers of a new
    session: its [User-Agent] is the one of [requests], not the
    browser's, which only the module-level [headers] holds, and
    [headers] is not handed to [requests.get].  So a site that serves
    browsers only refuses [simple_get]: it returns [None] where a request
    with [headers] would get the page. *)
Theorem simple_get_user_agent (requests_version accept_encoding url : pystr) :
  let sent := mk_request (str "GET") url
                (default_headers requests_version accept_encoding) in
  (forall network,
      simple_get requests_version accept_encoding network url
      = simple_get requests_version accept_encoding
                   (fun _ => network sent) url)
  /\ header_get (req_headers sent) (str "User-Agent")
     = Some (str "python-requests/" ++ requests_version)
  /\ header_get (req_headers sent) (str "User-Agent") <> Some user_agent
  /\ header_get (headers requests_version accept_encoding) (str "User-Agent")
     = Some user_agent
  /\ (forall page,
         simple_get requests_version accept_encoding (browsers_only page) url
         = Returns None
         /\ browsers_only page
              (get_request requests_version accept_encoding url
                 (Some (headers requests_version accept_encoding)))
            = Response (mk_response [(str "Content-Type", str "text/html")]
                                    (Some page))).
Proof.
  cbv zeta. split; [reflexivity|]. split; [reflexivity|]. split.
  { intros E. injection E. discriminate. }
  split; [reflexivity|].
  intros page. split; reflexivity.
Qed.

Section Fetcher.

Variable requests_version accept_encoding : pystr.
Variable network : request -> reply.

Local Notation simple_get' := (simple_get requests_version accept_encoding network).
Local Notation simple_get_request' :=
  (simple_get_request requests_version accept_encoding).

(** Whether a declared content type passes the test of
    [is_good_response]. *)
Definition declares_html (content_type : pystr) : bool :=
  Z.ltb (-1) (find (lower content_type) (str "html") 0).

(** With a [Content-Type] header in the response, [simple_get] returns
    the content when the lowered value contains [html] and the body
    could be read, and [None] otherwise. *)
Lemma simple_get_declared (url : pystr) (resp : response) (v : pystr) :
  network (simple_get_request' url) = Response resp ->
  header_get (resp_headers resp) (str "Content-Type") = Some v ->
  simple_get' url
  = Returns (if declares_html v then resp_content resp else None).
Proof.
  intros Hnet Hct. unfold simple_get, requests_get.
  fold (simple_get_request requests_version accept_encoding url).
  rewrite Hnet. unfold is_good_response. rewrite Hct. simpl.
  unfold declares_html.
  destruct (Z.ltb _ _); [destruct (resp_content resp)|]; reflexivity.
Qed.

Lemma simple_get_request_exception (url : pystr) :
  network (simple_get_request' url) = RequestException ->
  simple_get' url = Returns None.
Proof.
  intros Hnet. unfold simple_get, requests_get.
  fold (simple_get_request requests_version accept_encoding url).
  rewrite Hnet. reflexivity.
Qed.

(** [simple_get] returns content exactly when the request raised
    nothing, the declared content type contains [html] and the body was
    read. *)
Lemma simple_get_content (url : pystr) (body : bytes) :
  simple_get' url = Returns (Some body) <->
  exists resp v,
    network (simple_get_request' url) = Response resp
    /\ header_get (resp_headers resp) (str "Content-Type") = Some v
    /\ declares_html v = true
    /\ resp_content resp = Some body.
Proof.
  split.
  - unfold simple_get, requests_get.
    fold (simple_get_request requests_version accept_encoding url).
    destruct (network (simple_get_request' url)) as [|e|resp];
      [discriminate | discriminate |].
    unfold is_good_response.
    destruct (header_get (resp_headers resp) (str "Content-Type")) as [v|] eqn:Hct;
      [|discriminate].
    simpl. fold (declares_html v).
    destruct (declares_html v) eqn:Hd; [|discriminate].
    destruct (resp_content resp) as [b|] eqn:Hb; [|discriminate].
    intros E. injection E as <-. exists resp, v. auto.
  - intros (resp & v & Hnet & Hct & Hd & Hb).
    rewrite (simple_get_declared Hnet Hct), Hd, Hb. reflexivity.
Qed.

End Fetcher.

Example declares_html_text : declares_html (str "text/html; charset=UTF-8") = true.
Proof. reflexivity. Qed.

Example declares_html_json : declares_html (str "application/json") = false.
Proof. reflexivity. Qed.

Example declares_html_xml : declares_html (str "application/xml") = false.
Proof. reflexivity. Qed.

(** C5.  A response without a [Content-Type] header: the lookup in
    [is_good_response] raises KeyError, which is no RequestException, so
    [simple_get] raises instead of returning [None]. *)
Theorem simple_get_without_content_type
        (requests_version accept_encoding url : pystr) (body : bytes) :
  let resp := mk_response [(str "Content-Length", str "0")] (Some body) in
  header_get (resp_headers resp) (str "Content-Type") = None
  /\ simple_get requests_version accept_encoding (fun _ => Response resp) url
     = Raises KeyError.
Proof.
  split; reflexivity.
Qed.

(** ** Search and failed fetches *)

Section Resolver.

Variable requests_version accept_encoding : pystr.
Variable network : request -> reply.
Variable html_parser : bytes -> outcome node.
Variable eval : pystr -> outcome pyval.

Local Notation simple_get' := (simple_get requests_version accept_encoding network).
Local Notation search_seiyuu' :=
  (search_seiyuu requests_version accept_encoding network html_parser).
Local Notation new_Seiyuu' :=
  (new_Seiyuu requests_version accept_encoding network html_parser).
Local Notation new_AnimeList' :=
  (new_AnimeList requests_version accept_encoding network eval).

(** A results page whose table is one row without a link. *)
Lemma search_soup_no_results (soup title table row : node) :
  find_tag soup (str "title") = Some title ->
  tag_string title = Some search_title ->
  find_tag soup (str "table") = Some table ->
  find_all table (str "tr") = [row] ->
  find_tag row (str "a") = None ->
  search_soup soup = Returns [].
Proof.
  intros Ht Hs Htab Hrows Ha. unfold search_soup.
  rewrite Ht. cbn [attr_of bind]. rewrite Hs.
  unfold key_eqb. rewrite str_eqb_refl. cbn [negb].
  rewrite Htab. cbn [attr_of bind]. rewrite Hrows, Ha. reflexivity.
Qed.

(** C8.  The search page was fetched and parsed; its title is the title
    of a results listing; its first table has a single row, and the row
    holds no link.  Then [search_seiyuu] returns the empty dictionary. *)
Theorem search_seiyuu_no_results (search q : pystr) (page : bytes)
        (soup title table row : node) :
  quote search = Returns q ->
  simple_get' (search_url q) = Returns (Some page) ->
  html_parser page = Returns soup ->
  find_tag soup (str "title") = Some title ->
  tag_string title = Some search_title ->
  find_tag soup (str "table") = Some table ->
  find_all table (str "tr") = [row] ->
  find_tag row (str "a") = None ->
  search_seiyuu' search = Returns [].
Proof.
  intros Hq Hget Hparse Ht Hs Htab Hrows Ha.
  unfold search_seiyuu. rewrite Hq. simpl.
  rewrite Hget. simpl. rewrite Hparse. simpl.
  eapply search_soup_no_results; eassumption.
Qed.

(** C9.  When the fetch returns [None], [search_seiyuu] and [Seiyuu(url)]
    hand it to [BeautifulSoup] and raise; [AnimeList(username)] returns
    the list as it was initialised, not valid and empty. *)
Theorem failed_fetch_outcomes :
  (forall search q,
      quote search = Returns q ->
      simple_get' (search_url q) = Returns None ->
      search_seiyuu' search = Raises TypeError)
  /\ (forall url,
         simple_get' url = Returns None ->
         new_Seiyuu' url = Raises TypeError)
  /\ (forall username,
         simple_get' (origin ++ str "/animelist/" ++ username) = Returns None ->
         new_AnimeList' username
         = Returns (AnimeList.mk username
                      (origin ++ str "/animelist/" ++ username) [] [] false)).
Proof.
  repeat split.
  - intros search q Hq Hget. unfold search_seiyuu.
    rewrite Hq. simpl. rewrite Hget. reflexivity.
  - intros url Hget. unfold new_Seiyuu, load_seiyuu. simpl.
    rewrite Hget. reflexivity.
  - intros username Hget. unfold new_AnimeList, load_anime_list.
    cbn [AnimeList.url]. rewrite Hget. reflexivity.
Qed.

End Resolver.

(** ** The catalog parse *)


Lemma comprehension_Forall2 {A B : Type} (f : A -> outcome B) (l : list A) :
  forall ys, comprehension f l = Returns ys ->
             Forall2 (fun x y => f x = Returns y) l ys.
Proof.
  induction l as [|x l IH]; simpl; intros ys H.
  - injection H as <-. constructor.
  - apply bind_returns in H as (y & Hy & H).
    apply bind_returns in H as (ys' & Hys & H).
    injection H as <-. constructor; [assumption | apply IH; assumption].
Qed.


(** The text handed to [eval] for the decoded page [text]. *)
Definition cleaned (text : pystr) : pystr :=
  substitute (str "{" ++ locate text ++ str "}").


Section Catalog.

Variable eval : pystr -> outcome pyval.

Lemma load_fetched_inv (self : AnimeList.t) (raw : bytes) (l : AnimeList.t) :
  load_fetched eval self (Some raw) = Returns l ->
  exists text v,
    decode raw = Returns text
    /\ eval (cleaned text) = Returns v
    /\ py_list v = Returns (AnimeList.anime_details l)
    /\ comprehension make_anime (AnimeList.anime_details l)
       = Returns (AnimeList.anime l)
    /\ AnimeList.is_valid l = true.
Proof.
  unfold load_fetched. intros H.
  apply bind_returns in H as (text & Htext & H).
  apply bind_returns in H as (v & Hv & H).
  apply bind_returns in H as (details & Hd & H).
  apply bind_returns in H as (entries & He & H).
  injection H as <-. simpl. exists text, v. auto.
Qed.


Lemma make_anime_url (A : pyval) (entry : Anime.t) :
  make_anime A = Returns entry ->
  exists path,
    getitem A (str "anime_url") = Returns (PStr path)
    /\ Anime.url entry = origin ++ path.
Proof.
  unfold make_anime. intros H.
  apply bind_returns in H as (title & _ & H).
  apply bind_returns in H as (path & Hp & H).
  apply bind_returns in H as (u & Hu & H).
  injection H as <-. simpl.
  destruct path; try discriminate. injection Hu as <-.
  exists s. auto.
Qed.

Lemma entries_paths (details : list pyval) (entries : list Anime.t) :
  Forall2 (fun A entry => make_anime A = Returns entry) details entries ->
  exists paths,
    Forall2 (fun A path => getitem A (str "anime_url") = Returns (PStr path))
            details paths
    /\ map Anime.url entries = map (app origin) paths.
Proof.
  induction 1 as [|A entry details entries HA _ IH].
  - exists []. split; constructor.
  - destruct IH as (paths & Hp & Hu).
    destruct (make_anime_url A HA) as (path & Hg & Hpath).
    exists (path :: paths). split; [constructor; assumption|].
    simpl. rewrite Hpath, Hu. reflexivity.
Qed.

(** C7, as the code has it.  On an accepted page the entries are, in
    order, one for each object of the embedded data, that is of the
    value the cleaned text of the page evaluates to, taken apart by
    [list]: the url of an entry is the [anime_url] of its object after
    the site's origin.  No object is left out and none is merged with
    another, so the urls of the entries are pairwise distinct exactly
    when the [anime_url] values of the objects are. *)
Theorem load_anime_list_entries (self : AnimeList.t) (raw : bytes)
        (l : AnimeList.t) :
  load_fetched eval self (Some raw) = Returns l ->
  exists text v objects paths,
    decode raw = Returns text
    /\ eval (cleaned text) = Returns v
    /\ py_list v = Returns objects
    /\ Forall2 (fun A path => getitem A (str "anime_url") = Returns (PStr path))
               objects paths
    /\ map Anime.url (AnimeList.anime l) = map (app origin) paths
    /\ length (AnimeList.anime l) = length objects
    /\ (NoDup (map Anime.url (AnimeList.anime l)) <-> NoDup paths).
Proof.
  intros H.
  apply load_fetched_inv in H as (text & v & Hd & Hv & Ho & Hc & _).
  apply comprehension_Forall2 in Hc.
  destruct (entries_paths Hc) as (paths & Hp & Hu).
  exists text, v, (AnimeList.anime_details l), paths.
  repeat split; try assumption.
  - symmetry. eapply Forall2_length. exact Hc.
  - rewrite Hu. apply NoDup_map_inv.
  - rewrite Hu. apply NoDup_map_NoDup_ForallPairs. intros x y _ _ E.
    eapply app_inv_head. exact E.
Qed.

End Catalog.

Lemma replace_backslash (fuel : nat) :
  forall s, (length s <= fuel)%nat -> ~ In 92%N (replace_fuel fuel s [92%N] []).
Proof.
  induction fuel as [|fuel IH]; intros s Hlen.
  - destruct s; simpl in *; [tauto | lia].
  - destruct s as [|c s]; simpl; [tauto|].
    simpl in Hlen. destruct (N.eqb_spec c 92) as [->|Hc]; simpl.
    + apply IH. lia.
    + intros [E|Hin]; [congruence|]. revert Hin. apply IH. lia.
Qed.

(** The text handed to [eval] holds no backslash, wherever the
    backslashes of the page were. *)
Lemma substitute_no_backslash (s : pystr) : ~ In 92%N (substitute s).
Proof.
  unfold substitute, r. simpl. apply replace_backslash. unfold replace.
  lia.
Qed.

(** * Worked pages *)

(** An installed [requests] and a site that answers every request with
    the same page. *)
Definition version : pystr := str "2.31.0".
Definition encodings : pystr := str "gzip, deflate".

Definition serve (page : bytes) : request -> reply :=
  fun _ => Response (mk_response
                       [(str "Content-Type", str "text/html; charset=UTF-8")]
                       (Some page)).

(** A site that cannot be reached. *)
Definition unreachable : request -> reply := fun _ => RequestException.

(** A list page: the items go, quotes written [&quot;], into the
    [data-items] attribute of the table. *)
Definition list_page (items : string) : bytes :=
  bytes_of "<table data-items=" ++ [x22] ++ bytes_of "["
    ++ bytes_of items ++ bytes_of "]" ++ [x22] ++ bytes_of "></table>".

Definition user_list : AnimeList.t :=
  AnimeList.mk (str "user") (origin ++ str "/animelist/user") [] [] false.

(** Two items with different urls. *)
Definition page_two : bytes :=
  list_page "{&quot;status&quot;:2,&quot;anime_title&quot;:&quot;Monster&quot;,&quot;anime_url&quot;:&quot;\/anime\/19&quot;},{&quot;status&quot;:1,&quot;anime_title&quot;:&quot;Mushishi&quot;,&quot;anime_url&quot;:&quot;\/anime\/457&quot;}".

(** The same item twice. *)
Definition page_repeated : bytes :=
  list_page "{&quot;anime_title&quot;:&quot;Monster&quot;,&quot;anime_url&quot;:&quot;\/anime\/19&quot;},{&quot;anime_title&quot;:&quot;Monster&quot;,&quot;anime_url&quot;:&quot;\/anime\/19&quot;}".


(** The titles of the data are [null] and [a\b true false]; the second
    is written with its backslash doubled. *)
Definition page_titles : bytes :=
  list_page "{&quot;anime_title&quot;:&quot;null&quot;,&quot;anime_url&quot;:&quot;\/anime\/1&quot;},{&quot;anime_title&quot;:&quot;a\\b true false&quot;,&quot;anime_url&quot;:&quot;\/anime\/2&quot;}".

(** A page without the marker and without a closing bracket. *)
Definition page_plain : bytes := bytes_of "<html></html>".

Definition monster : Anime.t :=
  Anime.mk (PStr (str "Monster")) (origin ++ str "/anime/19").

Definition mushishi : Anime.t :=
  Anime.mk (PStr (str "Mushishi")) (origin ++ str "/anime/457").

Definition details_two : list pyval :=
  [ PDict [ (PStr (str "status"), PInt 2);
            (PStr (str "anime_title"), PStr (str "Monster"));
            (PStr (str "anime_url"), PStr (str "/anime/19")) ];
    PDict [ (PStr (str "status"), PInt 1);
            (PStr (str "anime_title"), PStr (str "Mushishi"));
            (PStr (str "anime_url"), PStr (str "/anime/457")) ] ].

Definition list_two : AnimeList.t :=
  AnimeList.mk (str "user") (origin ++ str "/animelist/user")
               [monster; mushishi] details_two true.

Example load_page_two :
  new_AnimeList version encodings (serve page_two) eval_fragment (str "user")
  = Returns list_two.
Proof. vm_compute. reflexivity. Qed.



(** C7 fails on [page_repeated]: both items become entries, with the
    same url. *)
Lemma repeated_item_kept :
  exists l,
    new_AnimeList version encodings (serve page_repeated) eval_fragment
                  (str "user") = Returns l
    /\ map Anime.url (AnimeList.anime l)
       = [origin ++ str "/anime/19"; origin ++ str "/anime/19"]
    /\ ~ NoDup (map Anime.url (AnimeList.anime l)).
Proof.
  eexists. split; [vm_compute; reflexivity|]. split; [reflexivity|].
  intros H. inversion H as [|x l Hx _]. apply Hx. left. reflexivity.
Qed.

Lemma load_anime_list_entries_witness :
  load_fetched eval_fragment user_list (Some page_two) = Returns list_two
  /\ exists text v objects paths,
      decode page_two = Returns text
      /\ eval_fragment (cleaned text) = Returns v
      /\ py_list v = Returns objects
      /\ Forall2 (fun A path => getitem A (str "anime_url") = Returns (PStr path))
                 objects paths
      /\ map Anime.url (AnimeList.anime list_two) = map (app origin) paths
      /\ length (AnimeList.anime list_two) = length objects
      /\ (NoDup (map Anime.url (AnimeList.anime list_two)) <-> NoDup paths).
Proof.
  assert (E : load_fetched eval_fragment user_list (Some page_two)
              = Returns list_two) by (vm_compute; reflexivity).
  split; [exact E|].
  exact (load_anime_list_entries eval_fragment user_list page_two E).
Defined.

(** C10.  The replacements run over the whole text handed to [eval],
    the titles included: no backslash is left anywhere in it, and on
    [page_titles], whose data hold the titles [null] and
    [a\b true false], the entries returned are titled [None] and
    [ab True False]. *)
Theorem substitutions_reach_titles :
  (forall text, ~ In 92%N (cleaned text))
  /\ exists text l,
      decode page_titles = Returns text
      /\ find text (str "&quot;anime_title&quot;:&quot;null&quot;") 0 <> (-1)%Z
      /\ find text (str "&quot;anime_title&quot;:&quot;a\\b true false&quot;") 0
         <> (-1)%Z
      /\ new_AnimeList version encodings (serve page_titles) eval_fragment
                       (str "user") = Returns l
      /\ map Anime.name (AnimeList.anime l)
         = [PStr (str "None"); PStr (str "ab True False")].
Proof.
  split; [intros text; apply substitute_no_backslash|].
  eexists. eexists. split; [vm_compute; reflexivity|].
  split; [vm_compute; discriminate|].
  split; [vm_compute; discriminate|].
  split; [vm_compute; reflexivity|].
  reflexivity.
Qed.

(** ** A performer page *)

Definition text (s : string) : node := NavigableString (str s).

Definition link_to (href : string) (label : string) : node :=
  Tag (str "a") [(str "href", str href)] [text label].

(** A row of the roles table: a picture, the anime, the character with
    its role. *)
Definition role_row (anime_href anime_title char_href char_name role : string)
  : node :=
  Tag (str "tr") []
      [ Tag (str "td") [] [Tag (str "img") [(str "src", str "p.jpg")] []];
        Tag (str "td") [] [link_to anime_href anime_title];
        Tag (str "td") []
            [ link_to char_href char_name;
              Tag (str "div") [] [text role] ] ].

Definition row_monster : node :=
  role_row "/anime/19" " Monster " "/character/1" "Johan" "Main".

Definition row_mushishi : node :=
  role_row "/anime/457" "Mushishi" "/character/1" "Johan" "Supporting".

Definition row_other : node :=
  role_row "/anime/19" "Monster" "/character/2" "Tenma" "Main".

Definition performer_soup : node :=
  Tag (str "[document]") []
      [ Tag (str "html") []
            [ Tag (str "body") []
                  [ Tag (str "table") [] [Tag (str "tr") [] [text "profile"]];
                    Tag (str "table") []
                        [row_monster; row_mushishi; row_other] ] ] ].

Definition performer_url : pystr := origin ++ str "/people/1".

Definition data_monster : row_data :=
  mk_row (str "Monster") (str "/anime/19") (str "Johan") (str "Main")
         (str "/character/1").

Definition data_mushishi : row_data :=
  mk_row (str "Mushishi") (str "/anime/457") (str "Johan") (str "Supporting")
         (str "/character/1").

Definition johan : Character.t :=
  Character.mk performer_url (str "Johan") (str "Main") (str "/character/1")
    [ Anime.mk (PStr (str "Monster")) (str "/anime/19");
      Anime.mk (PStr (str "Mushishi")) (str "/anime/457") ].

Definition tenma : Character.t :=
  Character.mk performer_url (str "Tenma") (str "Main") (str "/character/2")
    [ Anime.mk (PStr (str "Monster")) (str "/anime/19") ].

Example read_row_monster : read_row row_monster = Returns data_monster.
Proof. reflexivity. Qed.

Lemma load_seiyuu_linking_witness :
  exists c,
    load_rows performer_url [] [row_monster; row_mushishi] = Returns [c]
    /\ Character.url c = str "/character/1"
    /\ Character.anime c = [ Anime.mk (PStr (str "Monster")) (str "/anime/19");
                             Anime.mk (PStr (str "Mushishi")) (str "/anime/457") ]
    /\ length (Character.anime c) = 2%nat.
Proof.
  refine (proj2 (proj2 (load_seiyuu_linking performer_url [] data_monster))
                row_monster row_mushishi data_mushishi _ _ _ _).
  - reflexivity.
  - reflexivity.
  - reflexivity.
  - discriminate.
Defined.

Definition performer : Seiyuu.t := Seiyuu.mk performer_url [johan; tenma].

Lemma load_seiyuu_unique_witness :
  new_Seiyuu version encodings (serve (bytes_of "<html>...</html>"))
             (fun _ => Returns performer_soup) performer_url
  = Returns performer
  /\ unique (Seiyuu.characters performer)
  /\ exists rows,
      load_rows performer_url [] rows = Returns (Seiyuu.characters performer)
      /\ Forall unique ([] :: load_trace performer_url [] rows)
      /\ last (load_trace performer_url [] rows) [] = Seiyuu.characters performer.
Proof.
  assert (E : new_Seiyuu version encodings (serve (bytes_of "<html>...</html>"))
                         (fun _ => Returns performer_soup) performer_url
              = Returns performer) by (vm_compute; reflexivity).
  split; [exact E|].
  exact (load_seiyuu_unique version encodings
           (serve (bytes_of "<html>...</html>"))
           (fun _ => Returns performer_soup) performer_url E).
Defined.

(** ** A search page without results *)

Definition empty_search_soup : node :=
  Tag (str "[document]") []
      [ Tag (str "html") []
            [ Tag (str "head") []
                  [ Tag (str "title") []
                        [NavigableString search_title] ];
              Tag (str "body") []
                  [ Tag (str "table") []
                        [ Tag (str "tr") []
                              [ Tag (str "td") [] [text "No results found"] ] ] ] ] ].

Lemma search_seiyuu_no_results_witness :
  quote (str "no such name") = Returns (str "no%20such%20name")
  /\ search_seiyuu version encodings (serve (bytes_of "<html>...</html>"))
                   (fun _ => Returns empty_search_soup) (str "no such name")
     = Returns [].
Proof.
  split; [reflexivity|].
  refine (@search_seiyuu_no_results version encodings
            (serve (bytes_of "<html>...</html>"))
            (fun _ => Returns empty_search_soup)
            (str "no such name") (str "no%20such%20name")
            (bytes_of "<html>...</html>")
            empty_search_soup
            (Tag (str "title") [] [NavigableString search_title])
            (Tag (str "table") []
                 [ Tag (str "tr") []
                       [ Tag (str "td") [] [text "No results found"] ] ])
            (Tag (str "tr") []
                 [ Tag (str "td") [] [text "No results found"] ])
            _ _ _ _ _ _ _ _);
    reflexivity.
Defined.

Lemma failed_fetch_outcomes_witness :
  simple_get version encodings unreachable (search_url (str "Johan")) = Returns None
  /\ search_seiyuu version encodings unreachable
                   (fun _ => Returns performer_soup) (str "Johan")
     = Raises TypeError
  /\ new_Seiyuu version encodings unreachable
                (fun _ => Returns performer_soup) performer_url
     = Raises TypeError
  /\ new_AnimeList version encodings unreachable eval_fragment (str "user")
     = Returns user_list.
Proof.
  destruct (failed_fetch_outcomes version encodings unreachable
              (fun _ => Returns performer_soup) eval_fragment)
    as (Hsearch & Hseiyuu & Hlist).
  split; [reflexivity|]. split; [|split].
  - apply (Hsearch (str "Johan") (str "Johan")); reflexivity.
  - apply Hseiyuu. reflexivity.
  - apply (Hlist (str "user")). reflexivity.
Defined.


(** * Further properties *)

(** ** Searching in strings *)

Lemma startswith_app (s sub : pystr) :
  startswith s sub = true <-> exists rest, s = sub ++ rest.
Proof.
  revert s; induction sub as [|b sub IH]; intros s; simpl.
  - split; [exists s; reflexivity | reflexivity].
  - destruct s as [|a s].
    + split; [discriminate | intros [rest E]; discriminate].
    + rewrite andb_true_iff, N.eqb_eq, IH. split.
      * intros [-> [rest ->]]. exists rest. reflexivity.
      * intros [rest E]. injection E as -> ->. eauto.
Qed.

Lemma find_from_occurs (s sub : pystr) (k : nat) :
  find_from s sub = Some k ->
  exists pre post, s = pre ++ sub ++ post /\ length pre = k.
Proof.
  revert k; induction s as [|a s IH]; intros k; simpl.
  - destruct (startswith [] sub) eqn:E; [|discriminate].
    intros H; injection H as <-. apply startswith_app in E as [rest E].
    exists [], rest. auto.
  - destruct (startswith (a :: s) sub) eqn:E.
    + intros H; injection H as <-. apply startswith_app in E as [rest E].
      exists [], rest. auto.
    + destruct (find_from s sub) as [j|]; [|discriminate].
      simpl. intros H; injection H as <-.
      destruct (IH j eq_refl) as (pre & post & -> & <-).
      exists (a :: pre), post. auto.
Qed.

Lemma find_from_finds (pre sub post : pystr) :
  exists k, find_from (pre ++ sub ++ post) sub = Some k /\ (k <= length pre)%nat.
Proof.
  induction pre as [|a pre IH].
  - exists 0%nat. split; [|simpl; lia].
    assert (E : startswith ([] ++ sub ++ post) sub = true)
      by (apply startswith_app; exists post; reflexivity).
    destruct ([] ++ sub ++ post); simpl in *; rewrite E; reflexivity.
  - destruct IH as (k & Hk & Hle). simpl.
    destruct (startswith (a :: pre ++ sub ++ post) sub).
    + exists 0%nat. split; [reflexivity | lia].
    + rewrite Hk. exists (S k). split; [reflexivity | simpl; lia].
Qed.

(** [s.find(sub) > -1] says that [sub] occurs in [s]. *)
Lemma find_contains (s sub : pystr) :
  Z.ltb (-1) (find s sub 0) = true <-> exists pre post, s = pre ++ sub ++ post.
Proof.
  unfold find. simpl. split.
  - destruct (find_from s sub) as [k|] eqn:E; [|discriminate].
    intros _. destruct (find_from_occurs _ _ E) as (pre & post & H & _). eauto.
  - intros (pre & post & ->).
    destruct (find_from_finds pre sub post) as (k & -> & _).
    apply Z.ltb_lt. lia.
Qed.

(** The first occurrence of a character that is not in [pre]. *)
Lemma find_from_char (pre post : pystr) (x : N) :
  ~ In x pre -> find_from (pre ++ x :: post) [x] = Some (length pre).
Proof.
  induction pre as [|a pre IH]; simpl; intros H.
  - rewrite N.eqb_refl. reflexivity.
  - destruct (N.eqb_spec a x) as [->|Ha]; [tauto|]. simpl.
    rewrite IH by tauto. reflexivity.
Qed.

(** ** The fetcher, continued *)

Section Fetching.

Variable requests_version accept_encoding : pystr.
Variable network : request -> reply.

Local Notation simple_get' := (simple_get requests_version accept_encoding network).
Local Notation simple_get_request' :=
  (simple_get_request requests_version accept_encoding).

(** X1.  [simple_get] returns content exactly when [requests.get] gave
    a response, the response has a [Content-Type] header whose lowered
    value contains [html], and the body could be read; the content is
    that body. *)
Theorem simple_get_returns_content (url : pystr) (body : bytes) :
  simple_get' url = Returns (Some body) <->
  exists resp v pre post,
    network (simple_get_request' url) = Response resp
    /\ header_get (resp_headers resp) (str "Content-Type") = Some v
    /\ lower v = pre ++ str "html" ++ post
    /\ resp_content resp = Some body.
Proof.
  rewrite simple_get_content. split.
  - intros (resp & v & Hnet & Hct & Hd & Hb).
    apply find_contains in Hd as (pre & post & Hv).
    exists resp, v, pre, post. auto.
  - intros (resp & v & pre & post & Hnet & Hct & Hv & Hb).
    exists resp, v. repeat split; try assumption.
    apply find_contains. eauto.
Qed.

End Fetching.

(** ** The catalog parse, continued *)

(** X3.  The offsets of [load_anime_list].  When the marker is found at
    offset [n] and the page goes on, 14 characters later, with [body],
    one more character and the first closing bracket, the text taken is
    [body]: the four characters after the marker and the character
    before the bracket are dropped. *)
Theorem locate_body (page body post : pystr) (n : nat) (c : N) :
  find page (str "data-items") 0 = Z.of_nat n ->
  skipn (n + 14) page = body ++ c :: 93%N :: post ->
  ~ In 93%N body ->
  c <> 93%N ->
  locate page = body.
Proof.
  intros Hfind Hrest Hbody Hc. unfold locate. rewrite Hfind.
  replace (Z.of_nat n + 14)%Z with (Z.of_nat (n + 14)) by lia.
  rewrite Nat2Z.id.
  assert (Hlen : (length page = n + 14 + length body + 2 + length post)%nat).
  { pose proof (f_equal (@length N) Hrest) as L.
    rewrite length_skipn, length_app in L. simpl in L. lia. }
  assert (Hclose : find page (str "]") (n + 14)
                   = Z.of_nat (n + 14 + (length body + 1))).
  { unfold find.
    destruct (Nat.ltb_spec (length page) (n + 14)) as [L|_]; [lia|].
    rewrite Hrest.
    replace (body ++ c :: 93%N :: post) with ((body ++ [c]) ++ 93%N :: post)
      by (rewrite <- app_assoc; reflexivity).
    change (str "]") with [93%N].
    rewrite find_from_char.
    - rewrite length_app. reflexivity.
    - rewrite in_app_iff. simpl. intuition congruence. }
  rewrite Hclose. unfold slice, slice_bound.
  destruct (Z.ltb_spec (Z.of_nat (n + 14)) 0) as [L|_]; [lia|].
  destruct (Z.ltb_spec (Z.of_nat (n + 14 + (length body + 1)) - 1) 0) as [L|_];
    [lia|].
  rewrite Nat2Z.id.
  replace (Z.to_nat (Z.of_nat (n + 14 + (length body + 1)) - 1))
    with (n + 14 + length body)%nat by lia.
  rewrite !Nat.min_r by lia.
  replace (n + 14 + length body - (n + 14))%nat with (length body) by lia.
  rewrite Hrest. rewrite firstn_app, firstn_all, Nat.sub_diag. simpl.
  apply app_nil_r.
Qed.

Section Dicts.

Variable eval : pystr -> outcome pyval.

(** X4.  When the cleaned text evaluates to a dict, which is what the
    text of a single object is, [list] gives its keys: the parse returns
    a valid list without entries for the empty dict, and raises
    TypeError at the first key otherwise. *)
Theorem load_anime_list_dict (self : AnimeList.t) (raw : bytes)
        (text : pystr) (items : list (pyval * pyval)) :
  decode raw = Returns text ->
  eval (cleaned text) = Returns (PDict items) ->
  (items = [] ->
   load_fetched eval self (Some raw)
   = Returns (AnimeList.mk (AnimeList.username self) (AnimeList.url self)
                           [] [] true))
  /\ (forall key v rest,
         items = (key, v) :: rest ->
         (forall d, key <> PDict d) ->
         load_fetched eval self (Some raw) = Raises TypeError).
Proof.
  intros Hd He. unfold cleaned in He. split.
  - intros ->. unfold load_fetched. rewrite Hd. cbn [bind]. rewrite He.
    reflexivity.
  - intros key v rest -> Hkey. unfold load_fetched. rewrite Hd. cbn [bind].
    rewrite He. cbn [bind py_list map fst comprehension].
    unfold make_anime at 1.
    destruct key; try reflexivity. exfalso. eapply Hkey. reflexivity.
Qed.

End Dicts.

(** A list page with one item. *)
Definition page_one : bytes :=
  list_page "{&quot;anime_title&quot;:&quot;Monster&quot;,&quot;anime_url&quot;:&quot;\/anime\/19&quot;}".

Lemma locate_body_witness :
  decode page_two
  = Returns (str "<table data-items=" ++ [34%N]
               ++ str "[{&quot;status&quot;:2,&quot;anime_title&quot;:&quot;Monster&quot;,&quot;anime_url&quot;:&quot;\/anime\/19&quot;},{&quot;status&quot;:1,&quot;anime_title&quot;:&quot;Mushishi&quot;,&quot;anime_url&quot;:&quot;\/anime\/457&quot;}]"
               ++ [34%N] ++ str "></table>")
  /\ locate (str "<table data-items=" ++ [34%N]
               ++ str "[{&quot;status&quot;:2,&quot;anime_title&quot;:&quot;Monster&quot;,&quot;anime_url&quot;:&quot;\/anime\/19&quot;},{&quot;status&quot;:1,&quot;anime_title&quot;:&quot;Mushishi&quot;,&quot;anime_url&quot;:&quot;\/anime\/457&quot;}]"
               ++ [34%N] ++ str "></table>")
     = str "&quot;status&quot;:2,&quot;anime_title&quot;:&quot;Monster&quot;,&quot;anime_url&quot;:&quot;\/anime\/19&quot;},{&quot;status&quot;:1,&quot;anime_title&quot;:&quot;Mushishi&quot;,&quot;anime_url&quot;:&quot;\/anime\/457&quot;".
Proof.
  split; [vm_compute; reflexivity|].
  apply (@locate_body _ _ ([34%N] ++ str "></table>") 7%nat 125%N).
  - vm_compute. reflexivity.
  - vm_compute. reflexivity.
  - vm_compute. intuition discriminate.
  - discriminate.
Defined.

Lemma load_anime_list_dict_witness :
  load_fetched eval_fragment user_list (Some page_plain)
  = Returns (AnimeList.mk (str "user") (origin ++ str "/animelist/user")
                          [] [] true)
  /\ load_fetched eval_fragment user_list (Some page_one) = Raises TypeError.
Proof.
  split.
  - refine (proj1 (@load_anime_list_dict eval_fragment user_list page_plain
                     (str "<html></html>") [] _ _) eq_refl);
      vm_compute; reflexivity.
  - refine (proj2 (@load_anime_list_dict eval_fragment user_list page_one
                     _ _ _ _) (PStr (str "anime_title")) _ _ eq_refl _).
    + vm_compute. reflexivity.
    + vm_compute. reflexivity.
    + discriminate.
Defined.

(** ** The performer page, continued *)

(** X5.  One row that cannot be read stops the loop: [load_rows] raises
    and returns no characters, whatever the other rows hold. *)
Theorem load_rows_unreadable_row (self_url : pystr) (rows : list node)
        (row : node) (e : exn) :
  In row rows ->
  read_row row = Raises e ->
  forall cs, exists e', load_rows self_url cs rows = Raises e'.
Proof.
  induction rows as [|r rows IH]; simpl; [tauto|].
  intros [->|Hin] Hrow cs.
  - rewrite Hrow. exists e. reflexivity.
  - destruct (read_row r) as [d|e1]; simpl; [|exists e1; reflexivity].
    apply IH; assumption.
Qed.

(** X6.  A row is read from its second and third cells: with fewer than
    three [td] below it, a row of [th] cells for one, [read_row]
    raises. *)
Theorem read_row_three_cells (row : node) :
  (length (find_all row (str "td")) < 3)%nat ->
  exists e, read_row row = Raises e.
Proof.
  unfold read_row. intros H.
  destruct (find_all row (str "td")) as [|td0 [|td1 [|td2 tds]]];
    simpl in H; try lia.
  - exists IndexError. reflexivity.
  - exists IndexError. reflexivity.
  - unfold index at 1. simpl nth_error. cbn [bind].
    destruct (find_text td1 (str "a")) as [an|e]; [|exists e; reflexivity].
    cbn [bind]. destruct (find_href td1) as [au|e]; [|exists e; reflexivity].
    exists IndexError. reflexivity.
Qed.

(** The pairs (character url, anime url) a list of characters holds. *)
Definition pairs (cs : list Character.t) : list (pystr * pystr) :=
  flat_map (fun c => map (fun a => (Character.url c, Anime.url a))
                         (Character.anime c)) cs.

Lemma pairs_app (cs cs' : list Character.t) :
  pairs (cs ++ cs') = pairs cs ++ pairs cs'.
Proof. unfold pairs. apply flat_map_app. Qed.

Lemma add_anime_pairs (cs : list Character.t) (d : row_data) :
  In (c_url d) (map Character.url cs) ->
  forall p, In p (pairs (add_anime cs d))
            <-> In p (pairs cs) \/ p = (c_url d, a_url d).
Proof.
  induction cs as [|c cs IH]; simpl; [tauto|].
  intros Hin p.
  destruct (str_eqb (Character.url c) (c_url d)) eqn:E.
  - apply str_eqb_eq in E.
    destruct (str_in (a_url d) (map Anime.url (Character.anime c))) eqn:Ha; simpl.
    + apply str_in_In in Ha. rewrite !in_app_iff. split; [tauto|].
      intros [H| ->]; [assumption|]. left.
      rewrite <- E. apply in_map_iff in Ha as (a & <- & Ha).
      apply in_map_iff. exists a. auto.
    + rewrite map_app, !in_app_iff. simpl. rewrite E.
      intuition congruence.
  - apply str_eqb_neq in E. simpl. rewrite !in_app_iff.
    rewrite IH by (destruct Hin; [contradiction | assumption]). tauto.
Qed.

Lemma link_pairs (self_url : pystr) (cs : list Character.t) (d : row_data) :
  forall p, In p (pairs (link self_url cs d))
            <-> In p (pairs cs) \/ p = (c_url d, a_url d).
Proof.
  intros p. unfold link.
  destruct (str_in (c_url d) (map Character.url cs)) eqn:E; simpl.
  - apply add_anime_pairs. apply str_in_In. assumption.
  - rewrite pairs_app, in_app_iff. simpl. intuition congruence.
Qed.

(** X7.  What the loop returns holds exactly the pairs of the rows: a
    character has an anime if and only if the characters given had it or
    some row names the two urls together. *)
Theorem load_rows_pairs (self_url : pystr) (rows : list node) :
  forall cs cs',
    load_rows self_url cs rows = Returns cs' ->
    forall p,
      In p (pairs cs') <->
      In p (pairs cs)
      \/ exists row d, In row rows /\ read_row row = Returns d
                       /\ p = (c_url d, a_url d).
Proof.
  induction rows as [|row rows IH]; simpl; intros cs cs' H p.
  - injection H as <-. split; [tauto|].
    intros [H|(row & d & [] & _)]. assumption.
  - destruct (read_row row) as [d|e] eqn:Hrow; simpl in H; [|discriminate].
    rewrite (IH _ _ H p), link_pairs. split.
    + intros [[Hp| ->]|(row' & d' & Hin & Hr & ->)]; eauto 8.
    + intros [Hp|(row' & d' & [<-|Hin] & Hr & ->)]; eauto 8.
      rewrite Hrow in Hr. injection Hr as <-. auto.
Qed.

(** [c'] is [c] with anime added at the end. *)
Definition extends (c c' : Character.t) : Prop :=
  Character.seiyuu c' = Character.seiyuu c
  /\ Character.name c' = Character.name c
  /\ Character.role c' = Character.role c
  /\ Character.url c' = Character.url c
  /\ exists more, Character.anime c' = Character.anime c ++ more.

Lemma extends_refl (c : Character.t) : extends c c.
Proof.
  repeat split. exists []. symmetry. apply app_nil_r.
Qed.

Lemma extends_trans (c1 c2 c3 : Character.t) :
  extends c1 c2 -> extends c2 c3 -> extends c1 c3.
Proof.
  intros (A1 & A2 & A3 & A4 & m1 & A5) (B1 & B2 & B3 & B4 & m2 & B5).
  repeat split; try congruence.
  exists (m1 ++ m2). rewrite B5, A5, app_assoc. reflexivity.
Qed.

Lemma Forall2_extends_refl (cs : list Character.t) : Forall2 extends cs cs.
Proof.
  induction cs; constructor; [apply extends_refl | assumption].
Qed.

Lemma add_anime_extends (cs : list Character.t) (d : row_data) :
  Forall2 extends cs (add_anime cs d).
Proof.
  induction cs as [|c cs IH]; simpl; [constructor|].
  destruct (str_eqb (Character.url c) (c_url d)).
  - constructor; [|apply Forall2_extends_refl].
    destruct (negb _); [|apply extends_refl].
    repeat split. simpl. eauto.
  - constructor; [apply extends_refl | assumption].
Qed.

Lemma Forall2_extends_trans (l1 l2 l3 : list Character.t) :
  Forall2 extends l1 l2 -> Forall2 extends l2 l3 -> Forall2 extends l1 l3.
Proof.
  intros H; revert l3; induction H as [|a b l1 l2 Hab _ IH]; intros l3 H3;
    inversion H3; subst; constructor.
  - eapply extends_trans; eassumption.
  - apply IH. assumption.
Qed.

Lemma Forall2_extends_urls (l l' : list Character.t) :
  Forall2 extends l l' -> map Character.url l' = map Character.url l.
Proof.
  induction 1 as [|c c' l l' (_ & _ & _ & Hu & _) _ IH]; simpl;
    [reflexivity | rewrite Hu, IH; reflexivity].
Qed.

(** The character the [if] branch appends for the row data [d]. *)
Definition new_character (self_url : pystr) (d : row_data) : Character.t :=
  Character.mk self_url (c_name d) (c_role d) (c_url d)
               [Anime.mk (PStr (a_name d)) (a_url d)].

Lemma link_extends (self_url : pystr) (cs : list Character.t) (d : row_data) :
  exists kept new,
    link self_url cs d = kept ++ new
    /\ Forall2 extends cs kept
    /\ ((new = [] /\ In (c_url d) (map Character.url cs))
        \/ (new = [new_character self_url d]
            /\ ~ In (c_url d) (map Character.url cs))).
Proof.
  unfold link.
  destruct (str_in (c_url d) (map Character.url cs)) eqn:E; simpl.
  - exists (add_anime cs d), []. split; [symmetry; apply app_nil_r|].
    split; [apply add_anime_extends|]. left. split; [reflexivity|].
    apply str_in_In. exact E.
  - eexists. eexists. split; [reflexivity|].
    split; [apply Forall2_extends_refl|]. right. split; [reflexivity|].
    apply str_in_not_In. exact E.
Qed.

(** [c] was appended for the first of the [rows] with its url: it has
    the name, the role and the url of that row, and the anime of that
    row is its first. *)
Definition made_by_first_row (self_url : pystr) (rows : list node)
           (c : Character.t) : Prop :=
  exists rows1 row rows2 d more,
    rows = rows1 ++ row :: rows2
    /\ read_row row = Returns d
    /\ (forall row' d', In row' rows1 -> read_row row' = Returns d' ->
                        c_url d' <> c_url d)
    /\ c = Character.mk self_url (c_name d) (c_role d) (c_url d)
                        (Anime.mk (PStr (a_name d)) (a_url d) :: more).

(** X8.  The loop never removes, reorders or renames a character: the
    list it returns starts with the characters it was given, each with
    the seiyuu, name, role and url it had and with its anime followed by
    what was added.  The characters after them are new: none has the url
    of a character given, and each was made from the first row with its
    url, whose name, role and url it has and whose anime is its
    first. *)
Theorem load_rows_extends (self_url : pystr) (rows : list node) :
  forall cs cs',
    load_rows self_url cs rows = Returns cs' ->
    exists kept new,
      cs' = kept ++ new
      /\ Forall2 extends cs kept
      /\ Forall (fun c => ~ In (Character.url c) (map Character.url cs)
                          /\ made_by_first_row self_url rows c) new.
Proof.
  induction rows as [|row rows IH]; simpl; intros cs cs' H.
  - injection H as <-. exists cs, []. split; [symmetry; apply app_nil_r|].
    split; [apply Forall2_extends_refl | constructor].
  - destruct (read_row row) as [d|e] eqn:Hrow; simpl in H; [|discriminate].
    destruct (IH _ _ H) as (kept1 & new1 & -> & Hk & Hnew).
    destruct (link_extends self_url cs d) as (k0 & n0 & E & H0 & Hcase).
    assert (Hurls : map Character.url (link self_url cs d)
                    = map Character.url cs ++ map Character.url n0).
    { rewrite E, map_app, (Forall2_extends_urls H0). reflexivity. }
    assert (Hd : In (c_url d) (map Character.url (link self_url cs d))).
    { rewrite Hurls, in_app_iff.
      destruct Hcase as [[_ Hin]|[-> _]]; [left; exact Hin | right].
      left. reflexivity. }
    rewrite E in Hk. apply Forall2_app_inv_l in Hk as (k2 & n2 & H2 & Hn2 & ->).
    exists k2, (n2 ++ new1). split; [symmetry; apply app_assoc|].
    split; [eapply Forall2_extends_trans; eassumption|].
    apply Forall_app. split.
    + destruct Hcase as [[-> _]|[-> Hfresh]].
      * inversion Hn2. constructor.
      * inversion Hn2 as [|c0 c2 l0 l2 Hext Hnil]; subst.
        inversion Hnil; subst. constructor; [|constructor].
        destruct Hext as (A1 & A2 & A3 & A4 & more & A5).
        destruct c2 as [se na ro ur an]. simpl in *. subst.
        split; [exact Hfresh|].
        exists [], row, rows, d, more. repeat split; [exact Hrow|].
        intros row' d' [].
    + eapply Forall_impl; [|exact Hnew].
      intros c [Hc (r1 & r & r2 & d' & more & -> & Hr & Hfirst & ->)].
      simpl in Hc. split.
      * rewrite Hurls, in_app_iff in Hc. tauto.
      * exists (row :: r1), r, r2, d', more.
        split; [reflexivity|]. split; [exact Hr|]. split; [|reflexivity].
        intros row' d0 [<-|Hin] Hread.
        -- rewrite Hrow in Hread. injection Hread as <-.
           intros Eq. apply Hc. rewrite <- Eq. exact Hd.
        -- eapply Hfirst; eassumption.
Qed.

Lemma link_nonempty (self_url : pystr) (cs : list Character.t) (d : row_data) :
  Forall (fun c => Character.anime c <> []) cs ->
  Forall (fun c => Character.anime c <> []) (link self_url cs d).
Proof.
  intros H. unfold link. destruct (negb _).
  - apply Forall_app. split; [assumption|]. repeat constructor. discriminate.
  - induction H as [|c cs Hc Hcs IH]; simpl; [constructor|].
    destruct (str_eqb (Character.url c) (c_url d)).
    + constructor; [|assumption].
      destruct (negb _); [|assumption]. simpl.
      intros E. apply app_eq_nil in E as [_ E]. discriminate.
    + constructor; assumption.
Qed.

Lemma load_rows_nonempty (self_url : pystr) (rows : list node) :
  forall cs cs',
    Forall (fun c => Character.anime c <> []) cs ->
    load_rows self_url cs rows = Returns cs' ->
    Forall (fun c => Character.anime c <> []) cs'.
Proof.
  induction rows as [|row rows IH]; simpl; intros cs cs' Hcs H.
  - congruence.
  - destruct (read_row row) as [d|e]; simpl in H; [|discriminate].
    eapply IH; [|exact H]. apply link_nonempty. assumption.
Qed.

Section Performers.

Variable requests_version accept_encoding : pystr.
Variable network : request -> reply.
Variable html_parser : bytes -> outcome node.

Local Notation new_Seiyuu' :=
  (new_Seiyuu requests_version accept_encoding network html_parser).
Local Notation simple_get' := (simple_get requests_version accept_encoding network).

(** X9.  Every character of a loaded [Seiyuu] has at least one anime,
    and is a character of that [Seiyuu]. *)
Theorem load_seiyuu_characters (url : pystr) (s : Seiyuu.t) :
  new_Seiyuu' url = Returns s ->
  Seiyuu.url s = url
  /\ Forall (fun c => Character.anime c <> [] /\ Character.seiyuu c = url)
            (Seiyuu.characters s).
Proof.
  unfold new_Seiyuu, load_seiyuu. simpl. intros H.
  apply bind_returns in H as (fetched & _ & H).
  apply bind_returns in H as (soup & _ & H).
  apply bind_returns in H as (cs & Hcs & H).
  injection H as <-. simpl. split; [reflexivity|].
  unfold load_soup in Hcs.
  apply bind_returns in Hcs as (table & _ & Hrows).
  apply Forall_and.
  - eapply load_rows_nonempty; [|exact Hrows]. constructor.
  - revert Hrows. generalize (find_all table (str "tr")) as rows.
    assert (G : forall rows cs0 cs1,
               Forall (fun c => Character.seiyuu c = url) cs0 ->
               load_rows url cs0 rows = Returns cs1 ->
               Forall (fun c => Character.seiyuu c = url) cs1).
    { induction rows as [|row rows IH]; simpl; intros cs0 cs1 H0 H.
      - congruence.
      - destruct (read_row row) as [d|e]; simpl in H; [|discriminate].
        eapply IH; [|exact H]. unfold link. destruct (negb _).
        + apply Forall_app. split; [assumption|]. repeat constructor.
        + clear H. induction H0 as [|c cs0 Hc Hcs0 IH0]; simpl; [constructor|].
          destruct (str_eqb (Character.url c) (c_url d)).
          * constructor; [|assumption]. destruct (negb _); assumption.
          * constructor; assumption. }
    intros rows. apply G. constructor.
Qed.

(** X10.  The roles are looked for in the second table of the page: a
    page that was fetched and parsed and has fewer than two tables makes
    [Seiyuu(url)] raise IndexError. *)
Theorem load_seiyuu_second_table (url : pystr) (page : bytes) (soup : node) :
  simple_get' url = Returns (Some page) ->
  html_parser page = Returns soup ->
  (length (find_all soup (str "table")) < 2)%nat ->
  new_Seiyuu' url = Raises IndexError.
Proof.
  intros Hget Hparse Hlen. unfold new_Seiyuu, load_seiyuu. simpl.
  rewrite Hget. simpl. rewrite Hparse. simpl.
  unfold load_soup, index.
  destruct (nth_error (find_all soup (str "table")) 1) eqn:E; [|reflexivity].
  assert (B : nth_error (find_all soup (str "table")) 1 <> None) by congruence.
  apply nth_error_Some in B. lia.
Qed.

End Performers.

(** ** Stripped names *)

(** Neither the first nor the last character is white space. *)
Definition trimmed (s : pystr) : Prop :=
  (forall c rest, s = c :: rest -> isspace c = false)
  /\ (forall pre c, s = pre ++ [c] -> isspace c = false).

Lemma lstrip_head (s : pystr) (c : N) (rest : pystr) :
  lstrip s = c :: rest -> isspace c = false.
Proof.
  induction s as [|a s IH]; simpl; [discriminate|].
  destruct (isspace a) eqn:E; [assumption|].
  intros H; injection H as <- _. assumption.
Qed.

Lemma lstrip_suffix (s : pystr) : exists p, s = p ++ lstrip s.
Proof.
  induction s as [|a s [p IH]]; simpl.
  - exists []. reflexivity.
  - destruct (isspace a).
    + exists (a :: p). simpl. f_equal. assumption.
    + exists []. reflexivity.
Qed.

Lemma strip_trimmed (s : pystr) : trimmed (strip s).
Proof.
  unfold strip. split.
  - intros c rest E.
    destruct (lstrip_suffix (rev (lstrip s))) as [p Hp].
    apply (f_equal (@rev N)) in Hp.
    rewrite rev_involutive, rev_app_distr, E in Hp.
    simpl in Hp. eapply lstrip_head. exact Hp.
  - intros pre c E. apply (f_equal (@rev N)) in E.
    rewrite rev_involutive, rev_app_distr in E. simpl in E.
    eapply lstrip_head. exact E.
Qed.

Lemma find_text_trimmed (tag : node) (name s : pystr) :
  find_text tag name = Returns s -> trimmed s.
Proof.
  unfold find_text. intros H.
  apply bind_returns in H as (t & _ & H).
  apply bind_returns in H as (s0 & _ & H).
  injection H as <-. apply strip_trimmed.
Qed.

(** X11.  The names and the role read from a row are stripped: they
    neither begin nor end with white space.  The urls are taken as they
    are written. *)
Theorem read_row_trimmed (row : node) (d : row_data) :
  read_row row = Returns d ->
  trimmed (a_name d) /\ trimmed (c_name d) /\ trimmed (c_role d).
Proof.
  unfold read_row. intros H.
  apply bind_returns in H as (td1 & _ & H).
  apply bind_returns in H as (an & Han & H).
  apply bind_returns in H as (au & _ & H).
  apply bind_returns in H as (td2 & _ & H).
  apply bind_returns in H as (cn & Hcn & H).
  apply bind_returns in H as (cr & Hcr & H).
  apply bind_returns in H as (cu & _ & H).
  injection H as <-. simpl.
  repeat split; eapply find_text_trimmed; eassumption.
Qed.

(** ** The search, continued *)

Lemma key_eqb_eq (a b : option pystr) : key_eqb a b = true <-> a = b.
Proof.
  destruct a as [s|], b as [t|]; simpl.
  - rewrite str_eqb_eq. split; congruence.
  - split; discriminate.
  - split; discriminate.
  - tauto.
Qed.

Lemma setitem_get (d : name_dict) (k : option pystr) (v : pystr) :
  name_dict_get (setitem d k v) k = Returns v.
Proof.
  induction d as [|[k' v'] d IH]; simpl.
  - rewrite (proj2 (key_eqb_eq k k) eq_refl). reflexivity.
  - destruct (key_eqb k' k) eqn:E; simpl; rewrite E; [reflexivity | assumption].
Qed.

Lemma setitem_get_other (d : name_dict) (k k' : option pystr) (v : pystr) :
  k' <> k -> name_dict_get (setitem d k v) k' = name_dict_get d k'.
Proof.
  intros Hk. induction d as [|[k0 v0] d IH]; simpl.
  - destruct (key_eqb k k') eqn:E; [|reflexivity].
    apply key_eqb_eq in E. congruence.
  - destruct (key_eqb k0 k) eqn:E; simpl.
    + apply key_eqb_eq in E. subst k0.
      destruct (key_eqb k k') eqn:E'; [|reflexivity].
      apply key_eqb_eq in E'. congruence.
    + rewrite IH. reflexivity.
Qed.

Lemma setitem_keys_in (d : name_dict) (k : option pystr) (v : pystr) :
  forall x, In x (map fst (setitem d k v)) -> In x (map fst d) \/ x = k.
Proof.
  induction d as [|[k0 v0] d IH]; simpl; intros x.
  - intuition.
  - destruct (key_eqb k0 k); simpl; [tauto|].
    intros [->|Hx]; [tauto|]. destruct (IH _ Hx); tauto.
Qed.

Lemma setitem_keys (d : name_dict) (k : option pystr) (v : pystr) :
  NoDup (map fst d) -> NoDup (map fst (setitem d k v)).
Proof.
  induction d as [|[k0 v0] d IH]; simpl; intros H.
  - repeat constructor. simpl. tauto.
  - inversion H as [|x l Hx Hl]; subst.
    destruct (key_eqb k0 k) eqn:E; simpl; [constructor; assumption|].
    constructor; [|apply IH; assumption].
    intros Hin. destruct (setitem_keys_in _ _ _ _ Hin) as [H1| ->]; [tauto|].
    rewrite (proj2 (key_eqb_eq k k) eq_refl) in E. discriminate.
Qed.

Lemma search_rows_app (rows1 rows2 : list node) :
  forall d,
    search_rows d (rows1 ++ rows2)
    = bind (search_rows d rows1) (fun d1 => search_rows d1 rows2).
Proof.
  induction rows1 as [|row rows1 IH]; simpl; intros d; [reflexivity|].
  destruct (index (find_all row (str "a")) 0) as [a0|e]; [|reflexivity].
  simpl. destruct (attr a0 (str "href")) as [h|e]; [|reflexivity].
  simpl. destruct (index (find_all row (str "a")) 1) as [a1|e]; [|reflexivity].
  simpl. apply IH.
Qed.

(** The name of a result row: the text of its second link. *)
Definition row_name (row : node) : option (option pystr) :=
  option_map tag_string (nth_error (find_all row (str "a")) 1).

Lemma search_rows_other (rows : list node) (k : option pystr) :
  (forall row, In row rows -> row_name row <> Some k) ->
  forall d d',
    search_rows d rows = Returns d' ->
    name_dict_get d' k = name_dict_get d k.
Proof.
  induction rows as [|row rows IH]; simpl; intros Hk d d' H.
  - congruence.
  - apply bind_returns in H as (a0 & _ & H).
    apply bind_returns in H as (h & _ & H).
    apply bind_returns in H as (a1 & Ha1 & H).
    rewrite (IH (fun r Hr => Hk r (or_intror Hr)) _ _ H).
    apply setitem_get_other. intros E.
    apply (Hk row (or_introl eq_refl)).
    unfold row_name. unfold index in Ha1.
    destruct (nth_error (find_all row (str "a")) 1); [|discriminate].
    injection Ha1 as ->. simpl. congruence.
Qed.

(** X12.  The last row with a name wins.  When the loop returns, the
    name of a row maps to the site's origin followed by the [href] of
    the row's first link, provided no later row has the same name. *)
Theorem search_rows_last_wins (rows1 rows2 : list node) (row a0 a1 : node)
        (more : list node) (h : pystr) (d d' : name_dict) :
  search_rows d (rows1 ++ row :: rows2) = Returns d' ->
  find_all row (str "a") = a0 :: a1 :: more ->
  attr a0 (str "href") = Returns h ->
  (forall row', In row' rows2 -> row_name row' <> Some (tag_string a1)) ->
  name_dict_get d' (tag_string a1) = Returns (origin ++ h).
Proof.
  intros H Hlinks Hh Hlater.
  rewrite search_rows_app in H.
  apply bind_returns in H as (d1 & _ & H).
  simpl in H. rewrite Hlinks in H. simpl in H. rewrite Hh in H. simpl in H.
  rewrite (search_rows_other _ Hlater _ H).
  apply setitem_get.
Qed.

Lemma search_rows_keys (rows : list node) :
  forall d d',
    search_rows d rows = Returns d' ->
    NoDup (map fst d) -> NoDup (map fst d').
Proof.
  induction rows as [|row rows IH]; simpl; intros d d' H Hd.
  - congruence.
  - apply bind_returns in H as (a0 & _ & H).
    apply bind_returns in H as (h & _ & H).
    apply bind_returns in H as (a1 & _ & H).
    eapply IH; [exact H|]. apply setitem_keys. assumption.
Qed.

(** X13.  In a table of two or more rows, or of one row with a link,
    every row must hold two links: a row with fewer, a heading row for
    one, makes the search raise. *)
Theorem search_rows_two_links (rows : list node) (row : node) :
  In row rows ->
  (length (find_all row (str "a")) < 2)%nat ->
  forall d, exists e, search_rows d rows = Raises e.
Proof.
  induction rows as [|r rows IH]; simpl; [tauto|].
  intros [->|Hin] Hlen d.
  - destruct (find_all row (str "a")) as [|a0 [|a1 l]]; simpl in Hlen; try lia.
    + exists IndexError. reflexivity.
    + unfold index at 1. simpl nth_error. cbn [bind].
      destruct (attr a0 (str "href")) as [h|e]; [|exists e; reflexivity].
      exists IndexError. reflexivity.
  - destruct (index (find_all r (str "a")) 0) as [a0|e];
      [|exists e; reflexivity].
    cbn [bind]. destruct (attr a0 (str "href")) as [h|e];
      [|exists e; reflexivity].
    cbn [bind]. destruct (index (find_all r (str "a")) 1) as [a1|e];
      [|exists e; reflexivity].
    cbn [bind]. apply IH; assumption.
Qed.

Section Searching.

Variable requests_version accept_encoding : pystr.
Variable network : request -> reply.
Variable html_parser : bytes -> outcome node.

Local Notation search_seiyuu' :=
  (search_seiyuu requests_version accept_encoding network html_parser).

Lemma search_soup_keys (soup : node) (d : name_dict) :
  search_soup soup = Returns d -> NoDup (map fst d).
Proof.
  unfold search_soup. intros H.
  apply bind_returns in H as (title & _ & H).
  destruct (negb _).
  - unfold single_profile in H.
    apply bind_returns in H as (h1 & _ & H).
    apply bind_returns in H as (table & _ & H).
    apply bind_returns in H as (td & _ & H).
    apply bind_returns in H as (div & _ & H).
    apply bind_returns in H as (a & _ & H).
    apply bind_returns in H as (href & _ & H).
    injection H as <-. simpl. repeat constructor. simpl. tauto.
  - apply bind_returns in H as (table & _ & H).
    assert (G : forall rows, search_rows [] rows = Returns d
                             -> NoDup (map fst d)).
    { intros rows Hr. eapply search_rows_keys; [exact Hr | constructor]. }
    destruct (find_all table (str "tr")) as [|row [|row2 rows]].
    + eapply G. exact H.
    + destruct (find_tag row (str "a")); [eapply G; exact H|].
      injection H as <-. constructor.
    + eapply G. exact H.
Qed.

(** X14.  The names [search_seiyuu] returns are pairwise distinct: two
    results of the same name are one entry. *)
Theorem search_seiyuu_names_distinct (search : pystr) (d : name_dict) :
  search_seiyuu' search = Returns d -> NoDup (map fst d).
Proof.
  unfold search_seiyuu. intros H.
  apply bind_returns in H as (q & _ & H).
  apply bind_returns in H as (fetched & _ & H).
  apply bind_returns in H as (soup & _ & H).
  eapply search_soup_keys. exact H.
Qed.

End Searching.

(** X15.  A page whose title is not the title of a results listing, be
    it without text, is read as the page of one person.  What is
    returned then has one entry: its key is the text of the first [h1],
    and its url is the [href] of the first link in the third [div] of
    the second cell of the first table, as it is written there: the
    site's origin is not put before it. *)
Theorem search_soup_single_profile (soup title : node) (d : name_dict) :
  find_tag soup (str "title") = Some title ->
  tag_string title <> Some search_title ->
  search_soup soup = Returns d ->
  exists h1 table td div a h,
    find_tag soup (str "h1") = Some h1
    /\ find_tag soup (str "table") = Some table
    /\ nth_error (find_all table (str "td")) 1 = Some td
    /\ nth_error (find_all td (str "div")) 2 = Some div
    /\ find_tag div (str "a") = Some a
    /\ attr a (str "href") = Returns h
    /\ d = [(tag_string h1, h)].
Proof.
  intros Ht Hs. unfold search_soup. rewrite Ht. cbn [attr_of bind].
  destruct (key_eqb (tag_string title) (Some search_title)) eqn:E.
  - apply key_eqb_eq in E. contradiction.
  - cbn [negb]. unfold single_profile. intros H.
    destruct (find_tag soup (str "h1")) as [h1|] eqn:H1; [|discriminate].
    cbn [attr_of bind] in H.
    destruct (find_tag soup (str "table")) as [table|] eqn:H2; [|discriminate].
    cbn [attr_of bind] in H. unfold index in H.
    destruct (nth_error (find_all table (str "td")) 1) as [td|] eqn:H3;
      [|discriminate].
    cbn [bind] in H.
    destruct (nth_error (find_all td (str "div")) 2) as [div|] eqn:H4;
      [|discriminate].
    cbn [bind] in H.
    destruct (find_tag div (str "a")) as [a|] eqn:H5; [|discriminate].
    cbn [attr_of bind] in H.
    destruct (attr a (str "href")) as [h|e] eqn:H6; [|discriminate].
    cbn [bind] in H. injection H as <-.
    exists h1, table, td, div, a, h. repeat split; assumption.
Qed.

(** ** The query *)

Ltac bools :=
  repeat rewrite ?orb_true_iff, ?andb_true_iff, ?orb_false_iff,
    ?andb_false_iff, ?N.leb_le, ?N.ltb_lt, ?N.eqb_eq, ?N.leb_gt, ?N.ltb_ge,
    ?N.eqb_neq in *.

Lemma quote_safe_ascii (c : N) : quote_safe c = true -> (c < 128)%N.
Proof. unfold quote_safe, between. bools. lia. Qed.

Lemma hex_digit_safe (d : N) : (d < 16)%N -> quote_safe (hex_digit d) = true.
Proof.
  intros H. unfold hex_digit.
  destruct (N.ltb_spec d 10); unfold quote_safe, between; bools; lia.
Qed.

Lemma quote_byte_alphabet (b : N) :
  (b < 256)%N ->
  Forall (fun c => quote_safe c = true \/ c = 37%N) (quote_byte b).
Proof.
  intros H. unfold quote_byte. destruct (quote_safe b) eqn:E.
  - constructor; [left; assumption | constructor].
  - constructor; [right; reflexivity|].
    constructor; [left; apply hex_digit_safe|].
    + apply N.Div0.div_lt_upper_bound. lia.
    + constructor; [left; apply hex_digit_safe | constructor].
      apply N.mod_lt. lia.
Qed.

Lemma utf8_encode_char_bound (c : N) :
  match utf8_encode_char c with
  | Some bs => Forall (fun b => (b < 256)%N) bs
  | None => True
  end.
Proof.
  unfold utf8_encode_char.
  destruct (N.ltb_spec c 128).
  { repeat (apply Forall_cons; [cbv beta; lia|]). apply Forall_nil. }
  destruct (N.ltb_spec c 2048).
  { assert (c / 64 < 32)%N by (apply N.Div0.div_lt_upper_bound; lia).
    assert (c mod 64 < 64)%N by (apply N.mod_lt; lia).
    repeat (apply Forall_cons; [cbv beta; lia|]). apply Forall_nil. }
  destruct (between 55296 c 57343); [exact I|].
  destruct (N.ltb_spec c 65536).
  { assert (c / 4096 < 16)%N by (apply N.Div0.div_lt_upper_bound; lia).
    assert ((c / 64) mod 64 < 64)%N by (apply N.mod_lt; lia).
    assert (c mod 64 < 64)%N by (apply N.mod_lt; lia).
    repeat (apply Forall_cons; [cbv beta; lia|]). apply Forall_nil. }
  destruct (N.ltb_spec c 1114112); [|exact I].
  assert (c / 262144 < 5)%N by (apply N.Div0.div_lt_upper_bound; lia).
  assert ((c / 4096) mod 64 < 64)%N by (apply N.mod_lt; lia).
  assert ((c / 64) mod 64 < 64)%N by (apply N.mod_lt; lia).
  assert (c mod 64 < 64)%N by (apply N.mod_lt; lia).
  repeat (apply Forall_cons; [cbv beta; lia|]). apply Forall_nil.
Qed.

Lemma utf8_encode_char_bytes (c : N) (bs : list N) :
  utf8_encode_char c = Some bs -> Forall (fun b => (b < 256)%N) bs.
Proof.
  intros E. pose proof (utf8_encode_char_bound c) as B.
  rewrite E in B. exact B.
Qed.

Lemma utf8_encode_bytes (s : pystr) :
  forall bs, utf8_encode s = Some bs -> Forall (fun b => (b < 256)%N) bs.
Proof.
  induction s as [|c s IH]; simpl; intros bs H.
  - injection H as <-. constructor.
  - destruct (utf8_encode_char c) as [b1|] eqn:E1; [|discriminate].
    destruct (utf8_encode s) as [b2|]; [|discriminate].
    injection H as <-. apply Forall_app. split.
    + eapply utf8_encode_char_bytes. exact E1.
    + apply IH. reflexivity.
Qed.

(** X16.  What [quote] returns is made of letters, digits, [_.-~/] and
    the percent sign: the search term puts no [&], [=], [#], [?] and no
    space into the url of the query. *)
Theorem quote_alphabet (s q : pystr) :
  quote s = Returns q ->
  Forall (fun c => quote_safe c = true \/ c = 37%N) q.
Proof.
  unfold quote. destruct (utf8_encode s) as [bs|] eqn:E; [|discriminate].
  intros H; injection H as <-.
  apply utf8_encode_bytes in E.
  induction E as [|b bs Hb _ IH]; simpl; [constructor|].
  apply Forall_app. split; [apply quote_byte_alphabet; assumption | exact IH].
Qed.

(** X17.  [quote] leaves a term alone that is made of letters, digits
    and [_.-~/]. *)
Theorem quote_safe_term (s : pystr) :
  Forall (fun c => quote_safe c = true) s -> quote s = Returns s.
Proof.
  intros H. unfold quote.
  assert (E : utf8_encode s = Some s).
  { induction H as [|c s Hc _ IH]; simpl; [reflexivity|].
    unfold utf8_encode_char.
    pose proof (quote_safe_ascii c Hc) as L. apply N.ltb_lt in L.
    rewrite L, IH. reflexivity. }
  assert (F : flat_map quote_byte s = s).
  { clear E. induction H as [|c s Hc _ IH]; simpl; [reflexivity|].
    unfold quote_byte at 1. rewrite Hc. simpl. f_equal. exact IH. }
  rewrite E, F. reflexivity.
Qed.

(** ** The filter, continued *)

(** X18.  Without an anime list every character is kept, at the grid
    row of its index. *)
Theorem kept_from_None (cs : list Character.t) :
  forall i, kept_from None i cs = combine (seq i (length cs)) cs.
Proof.
  induction cs as [|c cs IH]; intros i; simpl; [reflexivity|].
  rewrite IH. reflexivity.
Qed.

(** X19.  A kept character keeps the grid row of its index in the whole
    list of characters: the rows of the characters that are skipped stay
    empty. *)
Theorem kept_from_index (anime_list : option AnimeList.t)
        (cs : list Character.t) (i : nat) (c : Character.t) :
  In (i, c) (kept_from anime_list 0 cs) ->
  nth_error cs i = Some c /\ skipped anime_list c = false.
Proof.
  assert (G : forall cs i0,
             In (i, c) (kept_from anime_list i0 cs) ->
             (i0 <= i)%nat /\ nth_error cs (i - i0) = Some c
             /\ skipped anime_list c = false).
  { clear cs. induction cs as [|c0 cs IH]; simpl; intros i0 H; [tauto|].
    destruct (skipped anime_list c0) eqn:E.
    - apply IH in H as (L & Hn & Hs). split; [lia|]. split; [|assumption].
      replace (i - i0)%nat with (S (i - S i0)) by lia. exact Hn.
    - destruct H as [H|H].
      + injection H as <- <-. rewrite Nat.sub_diag. auto.
      + apply IH in H as (L & Hn & Hs). split; [lia|]. split; [|assumption].
        replace (i - i0)%nat with (S (i - S i0)) by lia. exact Hn. }
  intros H. apply G in H as (_ & Hn & Hs).
  rewrite Nat.sub_0_r in Hn. auto.
Qed.

(** X20.  With a list that has no entries, the list of a failed fetch
    for one, no character is kept. *)
Theorem kept_from_empty_list (l : AnimeList.t) (cs : list Character.t) :
  AnimeList.anime l = [] ->
  forall i, kept_from (Some l) i cs = [].
Proof.
  intros Hl. induction cs as [|c cs IH]; intros i; simpl; [reflexivity|].
  rewrite Hl. simpl.
  replace (existsb (fun _ : pystr => false) (map Anime.url (Character.anime c)))
    with false.
  - simpl. apply IH.
  - induction (map Anime.url (Character.anime c)); simpl; auto.
Qed.

(** ** The window *)

Section Window.

Variable requests_version accept_encoding : pystr.
Variable network : request -> reply.
Variable html_parser : bytes -> outcome node.
Variable eval : pystr -> outcome pyval.

Local Notation reachable :=
  (Main.reachable requests_version accept_encoding network html_parser eval).

(** The [state] options [set_state] gives the four widgets. *)
Definition widgets_of (n : Z) : list widget_state :=
  if (n =? 0)%Z then [normal; disabled; disabled; disabled]
  else if (n =? 1)%Z then [disabled; normal; normal; disabled]
  else [disabled; normal; disabled; normal].

Definition widgets (self : Main.t) : list widget_state :=
  [Main.user_button self; Main.seiyuu_entry self;
   Main.seiyuu_button self; Main.char_button self].

Definition no_list_or_valid (self : Main.t) : Prop :=
  Main.anime_list self = None
  \/ exists l, Main.anime_list self = Some l /\ AnimeList.is_valid l = true.

Definition window_invariant (self : Main.t) : Prop :=
  (Main.state self = 0 \/ Main.state self = 1 \/ Main.state self = 2)%Z
  /\ widgets self = widgets_of (Main.state self)
  /\ (Main.state self <> 0%Z -> no_list_or_valid self)
  /\ (Main.state self = 2%Z ->
      Main.seiyuu_list self <> []
      /\ Main.seiyuu_listbox self
         = flat_map Main.inserted (map fst (Main.seiyuu_list self))).

Lemma reachable_invariant (self : Main.t) :
  reachable self -> window_invariant self.
Proof.
  induction 1 as [|self ev _ IH Hen].
  - unfold window_invariant. simpl. repeat split; try tauto; try discriminate.
  - destruct IH as (Hst & Hw & Hl & Hs).
    assert (H0 : Main.seiyuu_entry self = normal -> Main.state self <> 0%Z).
    { intros Hn E. rewrite E in Hw. unfold widgets in Hw. simpl in Hw.
      injection Hw as A B C D. congruence. }
    assert (H1 : Main.seiyuu_button self = normal -> Main.state self = 1%Z).
    { intros Hn. unfold widgets in Hw.
      destruct Hst as [E|[E|E]]; [| exact E |]; rewrite E in Hw;
        simpl in Hw; injection Hw as A B C D; congruence. }
    destruct ev as [s|s| | |k]; simpl in Hen |- *.
    + unfold window_invariant. simpl. repeat split; try tauto; discriminate.
    + assert (Hne : Main.state self <> 0%Z)
        by (apply H0; destruct (Main.seiyuu_entry self); congruence).
      specialize (Hl Hne).
      unfold window_invariant, no_list_or_valid in *. simpl.
      repeat split; try tauto; try discriminate.
    + unfold Main.load_anime_list.
      destruct (str_eqb (strip (Main.user_var self)) []).
      * unfold window_invariant, no_list_or_valid. simpl.
        repeat split; try tauto; try discriminate.
      * destruct (new_AnimeList _ _ _ _ _) as [l|e]; simpl.
        -- destruct (AnimeList.is_valid l) eqn:Hv;
             unfold window_invariant, no_list_or_valid; simpl;
             repeat split; try tauto; try discriminate.
           intros _. right. exists l. auto.
        -- exact (conj Hst (conj Hw (conj Hl Hs))).
    + assert (E1 : Main.state self = 1%Z)
        by (apply H1; destruct (Main.seiyuu_button self); congruence).
      assert (Hv : no_list_or_valid self)
        by (apply Hl; rewrite E1; discriminate).
      unfold Main.load_seiyuu_list. simpl.
      destruct (search_seiyuu _ _ _ _ _) as [d|e]; simpl.
      * destruct d as [|p d]; simpl;
          unfold window_invariant, no_list_or_valid in *; simpl;
          repeat split; try tauto; try discriminate.
      * unfold window_invariant, no_list_or_valid in *. simpl.
        rewrite E1 in *.
        repeat split; try tauto; try discriminate.
    + unfold Main.load_char_list.
      destruct (name_dict_get _ _) as [u|e]; simpl;
        [|exact (conj Hst (conj Hw (conj Hl Hs)))].
      destruct (new_Seiyuu _ _ _ _ _) as [s|e]; simpl;
        exact (conj Hst (conj Hw (conj Hl Hs))).
Qed.

(** X21.  In every window of a session [state] is 0, 1 or 2 and the
    widgets are as [set_state] left them: [Load] can be clicked exactly
    in state 0, [Search] in state 1, [Search Characters] in state 2,
    and the voice actor can be typed in states 1 and 2. *)
Theorem window_widgets (self : Main.t) :
  reachable self ->
  (Main.state self = 0 \/ Main.state self = 1 \/ Main.state self = 2)%Z
  /\ (Main.user_button self = normal <-> Main.state self = 0%Z)
  /\ (Main.seiyuu_button self = normal <-> Main.state self = 1%Z)
  /\ (Main.char_button self = normal <-> Main.state self = 2%Z)
  /\ (Main.seiyuu_entry self = normal <-> Main.state self <> 0%Z).
Proof.
  intros H. apply reachable_invariant in H as (Hst & Hw & _ & _).
  split; [exact Hst|]. unfold widgets in Hw.
  destruct Hst as [E|[E|E]]; rewrite E in *; simpl in Hw;
    injection Hw as -> -> -> ->;
    repeat split; congruence.
Qed.

(** X22.  Whenever a search can be started or characters can be asked
    for, the anime list of the window is [None] or a valid list: a list
    that is not valid is never filtered against. *)
Theorem window_list_valid (self : Main.t) :
  reachable self ->
  Main.seiyuu_button self = normal \/ Main.char_button self = normal ->
  no_list_or_valid self.
Proof.
  intros H Hb. apply reachable_invariant in H as (Hst & Hw & Hl & _).
  apply Hl. intros E. rewrite E in Hw. unfold widgets in Hw. simpl in Hw.
  injection Hw as _ _ H1 H2. destruct Hb; congruence.
Qed.

Lemma name_dict_get_key (d : name_dict) (k : option pystr) :
  In k (map fst d) -> exists u, name_dict_get d k = Returns u.
Proof.
  induction d as [|[k0 v0] d IH]; simpl; [tauto|].
  intros H. destruct (key_eqb k0 k) eqn:E; [eauto|].
  destruct H as [H|H]; [|auto].
  subst k0. rewrite (proj2 (key_eqb_eq k k) eq_refl) in E. discriminate.
Qed.

Lemma inserted_keys (keys : list (option pystr)) (name : pystr) :
  In name (flat_map Main.inserted keys) <-> In (Some name) keys.
Proof.
  rewrite in_flat_map. split.
  - intros ([s|] & Hin & H); simpl in H; [|tauto].
    destruct H as [->|[]]. assumption.
  - intros H. exists (Some name). split; [assumption | left; reflexivity].
Qed.

(** X23.  Whenever [Search Characters] can be clicked, the last search
    returned names, and the listbox shows them: the keys of
    [seiyuu_list] that are strings, in the order of the dictionary (a
    key [None] has no item).  Every item of the listbox is thus a key of
    [seiyuu_list]: looking the selected item up raises no KeyError. *)
Theorem window_listbox (self : Main.t) :
  reachable self ->
  Main.char_button self = normal ->
  Main.seiyuu_list self <> []
  /\ Main.seiyuu_listbox self
     = flat_map Main.inserted (map fst (Main.seiyuu_list self))
  /\ (forall k, In k (Main.seiyuu_listbox self) ->
                exists u, name_dict_get (Main.seiyuu_list self) (Some k)
                          = Returns u).
Proof.
  intros H Hb. apply reachable_invariant in H as (Hst & Hw & _ & Hs).
  assert (E2 : Main.state self = 2%Z).
  { unfold widgets in Hw.
    destruct Hst as [E|[E|E]]; [| | exact E]; rewrite E in Hw; simpl in Hw;
      injection Hw as _ _ _ Hw; congruence. }
  destruct (Hs E2) as [Hne Hbox]. split; [exact Hne|]. split; [exact Hbox|].
  intros k Hk. rewrite Hbox in Hk. apply inserted_keys in Hk.
  apply name_dict_get_key. exact Hk.
Qed.

End Window.

(** * More worked pages *)

(** A heading row of the roles table. *)
Definition row_heading : node :=
  Tag (str "tr") [] [ Tag (str "th") [] [text "Anime"];
                      Tag (str "th") [] [text "Character"] ].

Lemma load_rows_unreadable_row_witness :
  In row_heading [row_monster; row_heading; row_other]
  /\ read_row row_heading = Raises IndexError
  /\ exists e,
      load_rows performer_url [] [row_monster; row_heading; row_other]
      = Raises e.
Proof.
  assert (Hin : In row_heading [row_monster; row_heading; row_other])
    by (right; left; reflexivity).
  split; [exact Hin|]. split; [reflexivity|].
  exact (@load_rows_unreadable_row performer_url
           [row_monster; row_heading; row_other] row_heading IndexError
           Hin eq_refl []).
Defined.

Lemma read_row_three_cells_witness :
  (length (find_all row_heading (str "td")) < 3)%nat
  /\ exists e, read_row row_heading = Raises e.
Proof.
  assert (H : (length (find_all row_heading (str "td")) < 3)%nat)
    by (vm_compute; lia).
  split; [exact H | exact (read_row_three_cells row_heading H)].
Defined.

Lemma load_rows_pairs_witness :
  load_rows performer_url [] [row_monster; row_mushishi; row_other]
  = Returns [johan; tenma]
  /\ (In (str "/character/1", str "/anime/457") (pairs [johan; tenma]) <->
      In (str "/character/1", str "/anime/457") (pairs [])
      \/ exists row d,
          In row [row_monster; row_mushishi; row_other]
          /\ read_row row = Returns d
          /\ (str "/character/1", str "/anime/457") = (c_url d, a_url d)).
Proof.
  assert (H : load_rows performer_url [] [row_monster; row_mushishi; row_other]
              = Returns [johan; tenma]) by reflexivity.
  split; [exact H|].
  exact (@load_rows_pairs performer_url _ [] [johan; tenma] H
           (str "/character/1", str "/anime/457")).
Defined.

Lemma load_rows_extends_witness :
  load_rows performer_url [tenma] [row_monster; row_mushishi; row_other]
  = Returns [tenma; johan]
  /\ exists kept new,
      [tenma; johan] = kept ++ new
      /\ Forall2 extends [tenma] kept
      /\ Forall (fun c => ~ In (Character.url c) (map Character.url [tenma])
                          /\ made_by_first_row performer_url
                               [row_monster; row_mushishi; row_other] c) new.
Proof.
  assert (H : load_rows performer_url [tenma]
                        [row_monster; row_mushishi; row_other]
              = Returns [tenma; johan]) by reflexivity.
  split; [exact H|].
  exact (@load_rows_extends performer_url _ [tenma] [tenma; johan] H).
Defined.

Lemma load_seiyuu_characters_witness :
  new_Seiyuu version encodings (serve (bytes_of "<html>...</html>"))
             (fun _ => Returns performer_soup) performer_url
  = Returns performer
  /\ Seiyuu.url performer = performer_url
  /\ Forall (fun c => Character.anime c <> []
                      /\ Character.seiyuu c = performer_url)
            (Seiyuu.characters performer).
Proof.
  assert (H : new_Seiyuu version encodings (serve (bytes_of "<html>...</html>"))
                         (fun _ => Returns performer_soup) performer_url
              = Returns performer) by (vm_compute; reflexivity).
  split; [exact H|].
  exact (@load_seiyuu_characters version encodings
           (serve (bytes_of "<html>...</html>"))
           (fun _ => Returns performer_soup) performer_url performer H).
Defined.

Lemma load_seiyuu_second_table_witness :
  (length (find_all empty_search_soup (str "table")) < 2)%nat
  /\ new_Seiyuu version encodings (serve (bytes_of "<html>...</html>"))
                (fun _ => Returns empty_search_soup) performer_url
     = Raises IndexError.
Proof.
  assert (H : (length (find_all empty_search_soup (str "table")) < 2)%nat)
    by (vm_compute; lia).
  split; [exact H|].
  exact (@load_seiyuu_second_table version encodings
           (serve (bytes_of "<html>...</html>"))
           (fun _ => Returns empty_search_soup) performer_url
           (bytes_of "<html>...</html>") empty_search_soup
           eq_refl eq_refl H).
Defined.

Lemma read_row_trimmed_witness :
  read_row row_monster = Returns data_monster
  /\ trimmed (a_name data_monster)
  /\ trimmed (c_name data_monster)
  /\ trimmed (c_role data_monster).
Proof.
  split; [reflexivity|].
  exact (@read_row_trimmed row_monster data_monster eq_refl).
Defined.

(** ** Search pages *)

(** A row of the results table: the picture, linked, and the name,
    linked. *)
Definition result_row_of (href name : string) : node :=
  Tag (str "tr") []
      [ Tag (str "td") []
            [ Tag (str "a") [(str "href", str href)]
                  [Tag (str "img") [(str "src", str "p.jpg")] []] ];
        Tag (str "td") [] [link_to href name] ].

Definition results_soup : node :=
  Tag (str "[document]") []
      [ Tag (str "html") []
            [ Tag (str "head") []
                  [ Tag (str "title") [] [NavigableString search_title] ];
              Tag (str "body") []
                  [ Tag (str "table") []
                        [ result_row_of "/people/10" "Sato, Rina";
                          result_row_of "/people/11" "Sato, Satomi";
                          result_row_of "/people/12" "Sato, Rina" ] ] ] ].

Definition results : name_dict :=
  [ (Some (str "Sato, Rina"), origin ++ str "/people/12");
    (Some (str "Sato, Satomi"), origin ++ str "/people/11") ].

(** The page of one person. *)
Definition profile_soup : node :=
  Tag (str "[document]") []
      [ Tag (str "html") []
            [ Tag (str "head") []
                  [ Tag (str "title") [] [text "Sato, Rina - MyAnimeList.net"] ];
              Tag (str "body") []
                  [ Tag (str "h1") [] [text "Sato, Rina"];
                    Tag (str "table") []
                        [ Tag (str "tr") []
                              [ Tag (str "td") [] [text "side"];
                                Tag (str "td") []
                                    [ Tag (str "div") [] [text "a"];
                                      Tag (str "div") [] [text "b"];
                                      Tag (str "div") []
                                          [link_to "https://myanimelist.net/people/10"
                                                   "Details"] ] ] ] ] ] ].

Lemma search_rows_last_wins_witness :
  search_rows [] ([result_row_of "/people/10" "Sato, Rina";
                   result_row_of "/people/11" "Sato, Satomi"]
                  ++ result_row_of "/people/12" "Sato, Rina" :: [])
  = Returns results
  /\ name_dict_get results (Some (str "Sato, Rina"))
     = Returns (origin ++ str "/people/12").
Proof.
  assert (H : search_rows [] ([result_row_of "/people/10" "Sato, Rina";
                               result_row_of "/people/11" "Sato, Satomi"]
                              ++ result_row_of "/people/12" "Sato, Rina" :: [])
              = Returns results) by reflexivity.
  split; [exact H|].
  refine (@search_rows_last_wins _ [] (result_row_of "/people/12" "Sato, Rina")
            _ (link_to "/people/12" "Sato, Rina") [] (str "/people/12")
            [] results H eq_refl eq_refl _).
  intros row' [].
Defined.

Lemma search_rows_two_links_witness :
  In row_heading [row_heading; result_row_of "/people/10" "Sato, Rina"]
  /\ (length (find_all row_heading (str "a")) < 2)%nat
  /\ exists e,
      search_rows [] [row_heading; result_row_of "/people/10" "Sato, Rina"]
      = Raises e.
Proof.
  assert (Hin : In row_heading
                   [row_heading; result_row_of "/people/10" "Sato, Rina"])
    by (left; reflexivity).
  assert (Hlen : (length (find_all row_heading (str "a")) < 2)%nat)
    by (vm_compute; lia).
  split; [exact Hin|]. split; [exact Hlen|].
  exact (@search_rows_two_links _ row_heading Hin Hlen []).
Defined.

Lemma search_seiyuu_names_distinct_witness :
  search_seiyuu version encodings (serve (bytes_of "<html>...</html>"))
                (fun _ => Returns results_soup) (str "Sato")
  = Returns results
  /\ NoDup (map fst results).
Proof.
  assert (H : search_seiyuu version encodings
                (serve (bytes_of "<html>...</html>"))
                (fun _ => Returns results_soup) (str "Sato")
              = Returns results) by (vm_compute; reflexivity).
  split; [exact H|].
  exact (@search_seiyuu_names_distinct version encodings
           (serve (bytes_of "<html>...</html>"))
           (fun _ => Returns results_soup) (str "Sato") results H).
Defined.

Lemma search_soup_single_profile_witness :
  search_soup profile_soup
  = Returns [(Some (str "Sato, Rina"), str "https://myanimelist.net/people/10")]
  /\ exists h1 table td div a h,
      find_tag profile_soup (str "h1") = Some h1
      /\ find_tag profile_soup (str "table") = Some table
      /\ nth_error (find_all table (str "td")) 1 = Some td
      /\ nth_error (find_all td (str "div")) 2 = Some div
      /\ find_tag div (str "a") = Some a
      /\ attr a (str "href") = Returns h
      /\ [(Some (str "Sato, Rina"), str "https://myanimelist.net/people/10")]
         = [(tag_string h1, h)].
Proof.
  split; [reflexivity|].
  refine (@search_soup_single_profile profile_soup
            (Tag (str "title") [] [text "Sato, Rina - MyAnimeList.net"])
            _ eq_refl _ eq_refl).
  vm_compute. discriminate.
Defined.

Lemma quote_alphabet_witness :
  quote (str "Sato & Rina?") = Returns (str "Sato%20%26%20Rina%3F")
  /\ Forall (fun c => quote_safe c = true \/ c = 37%N)
            (str "Sato%20%26%20Rina%3F").
Proof.
  split; [reflexivity|].
  exact (@quote_alphabet (str "Sato & Rina?") _ eq_refl).
Defined.

Lemma quote_safe_term_witness :
  Forall (fun c => quote_safe c = true) (str "Sato_Rina")
  /\ quote (str "Sato_Rina") = Returns (str "Sato_Rina").
Proof.
  assert (H : Forall (fun c => quote_safe c = true) (str "Sato_Rina"))
    by (repeat (apply Forall_cons; [reflexivity|]); apply Forall_nil).
  split; [exact H | exact (quote_safe_term H)].
Defined.

(** ** The filter and the window *)

Lemma kept_from_index_witness :
  In (1%nat, tenma)
     (kept_from (Some (AnimeList.mk (str "user") (str "list")
                                    [Anime.mk (PStr (str "Monster"))
                                              (str "/anime/19")] [] true))
                0 [Character.mk performer_url (str "Ginko") (str "Main")
                                (str "/character/3")
                                [Anime.mk (PStr (str "Mushishi"))
                                          (str "/anime/457")];
                   tenma])
  /\ nth_error [Character.mk performer_url (str "Ginko") (str "Main")
                             (str "/character/3")
                             [Anime.mk (PStr (str "Mushishi"))
                                       (str "/anime/457")];
                tenma] 1
     = Some tenma
  /\ skipped (Some (AnimeList.mk (str "user") (str "list")
                                 [Anime.mk (PStr (str "Monster"))
                                           (str "/anime/19")] [] true))
             tenma = false.
Proof.
  assert (H : In (1%nat, tenma)
     (kept_from (Some (AnimeList.mk (str "user") (str "list")
                                    [Anime.mk (PStr (str "Monster"))
                                              (str "/anime/19")] [] true))
                0 [Character.mk performer_url (str "Ginko") (str "Main")
                                (str "/character/3")
                                [Anime.mk (PStr (str "Mushishi"))
                                          (str "/anime/457")];
                   tenma])) by (left; reflexivity).
  split; [exact H | exact (kept_from_index _ _ _ _ H)].
Defined.

Lemma kept_from_empty_list_witness :
  AnimeList.anime user_list = []
  /\ kept_from (Some user_list) 0 [johan; tenma] = [].
Proof.
  split; [reflexivity|].
  exact (@kept_from_empty_list user_list [johan; tenma] eq_refl 0%nat).
Defined.

(** A session: [Load] with the user name left empty, a voice actor
    typed, [Search]. *)
Definition session : Main.t :=
  let net := serve (bytes_of "<html>...</html>") in
  let parser := fun _ : bytes => Returns results_soup in
  let fire := Main.fire version encodings net parser eval_fragment in
  fire (fire (fire Main.init Main.click_load) (Main.type_seiyuu (str "Sato")))
       Main.click_search.

Lemma session_reachable :
  Main.reachable version encodings (serve (bytes_of "<html>...</html>"))
                 (fun _ => Returns results_soup) eval_fragment session.
Proof.
  unfold session. cbv zeta.
  apply Main.reachable_fire; [|vm_compute; reflexivity].
  apply Main.reachable_fire; [|vm_compute; reflexivity].
  apply Main.reachable_fire; [|vm_compute; reflexivity].
  apply Main.reachable_init.
Defined.

Lemma window_widgets_witness :
  Main.state session = 2%Z
  /\ (Main.state session = 0 \/ Main.state session = 1
      \/ Main.state session = 2)%Z
  /\ (Main.user_button session = normal <-> Main.state session = 0%Z)
  /\ (Main.seiyuu_button session = normal <-> Main.state session = 1%Z)
  /\ (Main.char_button session = normal <-> Main.state session = 2%Z)
  /\ (Main.seiyuu_entry session = normal <-> Main.state session <> 0%Z).
Proof.
  split; [reflexivity | exact (window_widgets session_reachable)].
Defined.

Lemma window_list_valid_witness :
  Main.char_button session = normal /\ no_list_or_valid session.
Proof.
  split; [reflexivity|].
  exact (window_list_valid session_reachable (or_intror eq_refl)).
Defined.

Lemma window_listbox_witness :
  Main.char_button session = normal
  /\ Main.seiyuu_listbox session = [str "Sato, Rina"; str "Sato, Satomi"]
  /\ Main.seiyuu_list session <> []
  /\ Main.seiyuu_listbox session
     = flat_map Main.inserted (map fst (Main.seiyuu_list session))
  /\ (forall k, In k (Main.seiyuu_listbox session) ->
                exists u, name_dict_get (Main.seiyuu_list session) (Some k)
                          = Returns u).
Proof.
  split; [reflexivity|]. split; [reflexivity|].
  exact (window_listbox session_reachable eq_refl).
Defined.
